(** * flan: combination of audio buffers (mix, join, select, convolve)

    A shallow embedding of [src/flan/Audio/AudioCombination.cpp] and the
    properties its specification states about it.

    Samples, gains and times are C++ [float]s.  They are modelled as IEEE-754
    binary32 values through the Standard Library's [SpecFloat]
    (precision 24, maximal exponent 128, round to nearest even), so that the
    arithmetic the code performs is the arithmetic that is reasoned about:
    addition is not associative, [0 + (-0)] is [+0], and so on.

    Frame, channel and index quantities are C++ integers, modelled as [Z].
    [Frame] is a 32-bit signed integer: where the code adds two frames and
    nothing keeps the sum in range, the sum is written with its wrap-around
    ([frame_add]). *)

From Stdlib Require Import ZArith List Bool Lia.
From Stdlib Require Import SpecFloat.
From stdpp Require Import base list list_numbers.

Local Open Scope Z_scope.

(** ** binary32 arithmetic *)

Module F32.

Definition prec : Z := 24.
Definition emax : Z := 128.

Definition float : Type := spec_float.

Definition fadd : float -> float -> float := SFadd prec emax.
Definition fsub : float -> float -> float := SFsub prec emax.
Definition fmul : float -> float -> float := SFmul prec emax.
Definition fdiv : float -> float -> float := SFdiv prec emax.
Definition fsqrt : float -> float := SFsqrt prec emax.
Definition fabs : float -> float := SFabs.

(** [x >= y], [x < y] and [x == y] of C++: false as soon as one side is NaN. *)
Definition fge (x y : float) : bool := SFleb y x.
Definition flt (x y : float) : bool := SFltb x y.
Definition feq (x y : float) : bool := SFeqb x y.

(** Conversion of an integer to [float] (rounding to nearest even). *)
Definition of_Z (z : Z) : float := binary_normalize prec emax z 0 false.

Definition fzero : float := S754_zero false.
Definition fone : float := S754_finite false 8388608 (-23).
Definition fhalf : float := S754_finite false 8388608 (-24).

(** A value of the binary32 format: finite values carry a canonical mantissa
    and an exponent in range. *)
Definition valid (x : float) : Prop := valid_binary prec emax x = true.

Definition is_finite (x : float) : bool :=
  match x with
  | S754_zero _ | S754_finite _ _ _ => true
  | _ => false
  end.

Definition is_zero (x : float) : bool :=
  match x with
  | S754_zero _ => true
  | _ => false
  end.

(** Equality of sample values: the same value, where the two zeros, which
    C++ compares equal, are identified.  ([SpecFloat] has one NaN.) *)
Definition same (x y : float) : Prop :=
  x = y \/ (is_zero x = true /\ is_zero y = true).

End F32.

Export F32.

#[global] Instance float_inhabited : Inhabited float := populate fzero.

(** ** Data model *)

(** The integer and floating types of [flan/defines.h]. *)
Definition Channel : Type := Z.
Definition Frame : Type := Z.
Definition FrameRate : Type := Z.
Definition Sample : Type := float.
Definition Amplitude : Type := float.
Definition Second : Type := float.

(** The values of the 32-bit [Frame] type, and the sum of two frames as the
    machine computes it: modulo [2^32], into the signed range. *)
Definition min_frame : Z := -2147483648.
Definition max_frame : Z := 2147483647.

Definition frame_value (z : Z) : Prop := min_frame <= z <= max_frame.

Definition wrap_frame (z : Z) : Frame :=
  (z + 2147483648) mod 4294967296 - 2147483648.

Definition frame_add (x y : Frame) : Frame := wrap_frame (x + y).

(** [Function<Second, Amplitude>]: a wrapped pure callable. *)
Definition Func : Type := Second -> Amplitude.

(** [AudioBuffer::Format]. *)
Record Format : Type := mkFormat
  { num_channels : Channel;
    num_frames : Frame;
    sample_rate : FrameRate }.

(** [Audio]: a format and the flat sample storage. *)
Record Audio : Type := mkAudio
  { get_format : Format;
    buffer : list Sample }.

Definition get_num_channels (a : Audio) : Channel := num_channels (get_format a).
Definition get_num_frames (a : Audio) : Frame := num_frames (get_format a).
Definition get_sample_rate (a : Audio) : FrameRate := sample_rate (get_format a).

(** Modelled from the spec: the sample storage of [AudioBuffer] (its source
    is not part of the sources at hand).  "Owns a flat sequence of
    floating-point samples, frame-major order (all channels of frame 0, then
    frame 1, ...).  Invariant: storage length = channel_count x frame_count." *)
Definition buffer_pos (a : Audio) (channel : Channel) (frame : Frame) : nat :=
  Z.to_nat (frame * get_num_channels a + channel).

Definition get_sample (a : Audio) (channel : Channel) (frame : Frame) : Sample :=
  buffer a !!! buffer_pos a channel frame.

Definition set_sample (a : Audio) (channel : Channel) (frame : Frame) (s : Sample) : Audio :=
  mkAudio (get_format a) (<[buffer_pos a channel frame := s]> (buffer a)).

(** Modelled from the spec: the constructor [Audio( format )] allocates the
    storage the format asks for, and [clear_buffer] is the "zero-fill
    operation" of the buffer storage. *)
Definition Audio_of_format (fmt : Format) : Audio :=
  mkAudio fmt (replicate (Z.to_nat (num_channels fmt * num_frames fmt)) fzero).

Definition clear_buffer (a : Audio) : Audio :=
  mkAudio (get_format a) (replicate (length (buffer a)) fzero).

#[global] Instance Audio_inhabited : Inhabited Audio :=
  populate (mkAudio (mkFormat 0 0 0) []).

(** The storage invariant of the spec's data model; the frame count is a
    value of the [Frame] type. *)
Record buffer_ok (a : Audio) : Prop := mkBufferOk
  { ok_channels : 0 <= get_num_channels a;
    ok_frames : 0 <= get_num_frames a <= max_frame;
    ok_length : length (buffer a) = Z.to_nat (get_num_channels a * get_num_frames a) }.

(** Every stored sample is a binary32 value. *)
Definition samples_valid (a : Audio) : Prop := Forall valid (buffer a).
Definition samples_finite (a : Audio) : Prop :=
  Forall (fun x => is_finite x = true) (buffer a).

(** ** Collaborators

    The operations [AudioCombination.cpp] calls but does not define
    (conversions between seconds and frames, the resampler, the transform
    primitive).  They are parameters of the development; what a theorem
    needs of them is a hypothesis of that theorem. *)

Definition Complex : Type := (float * float)%type.

Class Collaborators : Type := mkCollaborators
  { (** [Audio::resample( sample_rate )] *)
    resample : Audio -> FrameRate -> Audio;
    (** [AudioBuffer::time_to_frame], [frame_to_time] and [get_length]:
        conversions that read the format of the buffer they are called on *)
    time_to_frame : Format -> Second -> Frame;
    frame_to_time : Format -> Frame -> Second;
    get_length : Format -> Second;
    (** [AudioBuffer::sample_function_over_domain]: the list of gains the
        buffer it is called on makes of a function *)
    sample_function_over_domain : Audio -> Func -> list Amplitude;
    (** [AudioBuffer::is_null] *)
    is_null : Audio -> bool;
    (** the sample rate of the format [Audio::create_null] builds *)
    null_sample_rate : FrameRate;
    (** [power_of_2_container] of [DSPUtility.h] *)
    power_of_2_container : Z -> Z;
    (** [FFTHelper]: the number of complex bins of a transform of a given
        size, and the two transforms, from the real buffer to the complex
        one and back *)
    complex_buffer_size : Z -> Z;
    r2c : Z -> list float -> list Complex;
    c2r : Z -> list Complex -> list float }.

Section Combination.

Context {collab : Collaborators}.

(** Modelled from the spec: [Audio::create_null], the "canonical
    zero-channel, zero-frame sentinel". *)
Definition create_null : Audio := mkAudio (mkFormat 0 0 null_sample_rate) [].

(** *** Helper functions *)

(** [std::max_element] followed by the projection: the greatest projected
    value of a non-empty range. *)
Definition max_of {A : Type} `{Inhabited A} (proj : A -> Z) (l : list A) : Z :=
  fold_left (fun m a => Z.max m (proj a)) (tail l) (proj (l !!! 0%nat)).

(** [all_match] of [match_sample_rates_or_return_null]: the loop clears the
    flag at every input whose rate differs from [max_sr]. *)
Definition all_match (max_sr : FrameRate) (ins : list Audio) : bool :=
  fold_left (fun flag a => if get_sample_rate a =? max_sr then flag else false) ins true.

Definition match_sample_rates_or_return_null (ins : list Audio) : list Audio :=
  match ins with
  | [] => []
  | _ =>
      let max_sr := max_of get_sample_rate ins in
      if all_match max_sr ins then []
      else map (fun a => resample a max_sr) ins
  end.

(** *** mix and mix_variable_gain *)

(** [ins_resampled_container.empty() ? ins_unmatched : get_pointers( ... )] *)
Definition reconciled (ins_unmatched : list Audio) : list Audio :=
  let ins_resampled_container := match_sample_rates_or_return_null ins_unmatched in
  match ins_resampled_container with
  | [] => ins_unmatched
  | _ => ins_resampled_container
  end.

(** [for( auto _ : iota_view( v.size(), n ) ) v.push_back( d )]: pads [v] up
    to [n] entries.  (With [v.size() > n] the bound of the view is not
    reachable from its start; the theorems ask for [length v <= n].) *)
Definition pad_to {A : Type} (n : nat) (d : A) (v : list A) : list A :=
  v ++ replicate (n - length v)%nat d.

(** "Convert start times to frames". *)
Definition to_start_frames (ins : list Audio) (start_times : list Second) : list Frame :=
  map (time_to_frame (get_format (ins !!! 0%nat))) start_times.

(** The body of the innermost lambda: one input frame added into the
    output.  [gain_at] is [amplitudes[in]] in [mix] and
    [amplitude_samples[in][local_frame]] in [mix_variable_gain].

    The sum [local_frame + start_frames[in]] is guarded: a sum that leaves
    the [Frame] range wraps to a negative frame, which fails the guard as
    the sum itself does, being above every frame count; a sum that passes
    the guard is in range.  So the sum is written without its wrap-around
    ([mix_frame_wraps] proves that this changes nothing). *)
Definition mix_frame (me : Audio) (start_frame : Frame) (gain_at : Frame -> Amplitude)
    (out_num_frames : Frame) (channel : Channel) (out : Audio) (local_frame : Frame) : Audio :=
  let global_frame := local_frame + start_frame in
  if (0 <=? global_frame) && (global_frame <? out_num_frames) then
    set_sample out channel global_frame
      (fadd (get_sample out channel global_frame)
            (fmul (get_sample me channel local_frame) (gain_at local_frame)))
  else out.

(** The [std::for_each] over the frames of one channel.  The frames write to
    distinct output locations; the model visits them in increasing order. *)
Definition mix_channel (me : Audio) (start_frame : Frame) (gain_at : Frame -> Amplitude)
    (out_num_frames : Frame) (out : Audio) (channel : Channel) : Audio :=
  fold_left (mix_frame me start_frame gain_at out_num_frames channel)
            (seqZ 0 (get_num_frames me)) out.

(** The loop over the channels of one input. *)
Definition mix_input (me : Audio) (start_frame : Frame) (gain_at : Frame -> Amplitude)
    (out_num_frames : Frame) (out : Audio) : Audio :=
  fold_left (mix_channel me start_frame gain_at out_num_frames)
            (seqZ 0 (get_num_channels me)) out.

(** "Get the maximum of output sizes required by each input". *)
Definition frames_needed (ins : list Audio) (start_frames : list Frame) : Frame :=
  fold_left (fun acc i =>
               Z.max acc (frame_add (get_num_frames (ins !!! i)) (start_frames !!! i)))
            (seq 0 (length ins)) 0.

(** "Output setup". *)
Definition mix_format (ins : list Audio) (start_frames : list Frame) : Format :=
  mkFormat (max_of get_num_channels ins)
           (frames_needed ins start_frames)
           (sample_rate (get_format (ins !!! 0%nat))).

(** "For each input, write to output": the inputs are written one after the
    other, [k] of them in [mix_write_upto k]. *)
Definition mix_write_upto (k : nat) (ins : list Audio) (start_frames : list Frame)
    (gains : nat -> Frame -> Amplitude) (out_num_frames : Frame) (out : Audio) : Audio :=
  fold_left (fun out i => mix_input (ins !!! i) (start_frames !!! i) (gains i) out_num_frames out)
            (seq 0 k) out.

Definition mix_write (ins : list Audio) (start_frames : list Frame)
    (gains : nat -> Frame -> Amplitude) (out_num_frames : Frame) (out : Audio) : Audio :=
  mix_write_upto (length ins) ins start_frames gains out_num_frames out.

Definition mix (ins_unmatched : list Audio) (start_times : list Second)
    (amplitudes : list Amplitude) : Audio :=
  match ins_unmatched with
  | [] => create_null
  | _ =>
      let ins := reconciled ins_unmatched in
      let start_times := pad_to (length ins) fzero start_times in
      let amplitudes := pad_to (length ins) fone amplitudes in
      let start_frames := to_start_frames ins start_times in
      let format := mix_format ins start_frames in
      let out := clear_buffer (Audio_of_format format) in
      mix_write ins start_frames (fun i _ => amplitudes !!! i) (num_frames format) out
  end.

(** Modelled from the spec: [Function::sample( start, end, step )], which is
    not part of the sources at hand.  "Producing a dense ordered sequence of
    values by sampling at a fixed step over a half-open domain range": the
    value for index [i] of [start, end) is the function at [i * step]. *)
Definition index_time (i : Z) (step : Second) : Second := fmul (of_Z i) step.

Definition sample (f : Func) (start end_ : Z) (step : Second) : list Amplitude :=
  map (fun i => f (index_time i step)) (seqZ start (end_ - start)).

(** [const Function<Second, Amplitude> level_func = 1] *)
Definition level_func : Func := fun _ => fone.

(** "Sample each function, if there aren't enough use constant 1". *)
Definition amplitude_samples (ins : list Audio) (start_frames : list Frame)
    (amplitudes : list Func) : list (list Amplitude) :=
  map (fun i =>
         let f := if (i <? length amplitudes)%nat then amplitudes !!! i else level_func in
         sample f (start_frames !!! i)
                (frame_add (start_frames !!! i) (get_num_frames (ins !!! i)))
                (frame_to_time (get_format (ins !!! i)) 1))
      (seq 0 (length ins)).

Definition mix_variable_gain (ins_unmatched : list Audio) (start_times : list Second)
    (amplitudes : list Func) : Audio :=
  match ins_unmatched with
  | [] => create_null
  | _ =>
      let ins := reconciled ins_unmatched in
      let start_times := pad_to (length ins) fzero start_times in
      let start_frames := to_start_frames ins start_times in
      let amplitude_samples := amplitude_samples ins start_frames amplitudes in
      let format := mix_format ins start_frames in
      let out := clear_buffer (Audio_of_format format) in
      mix_write ins start_frames
        (fun i local_frame => (amplitude_samples !!! i) !!! Z.to_nat local_frame)
        (num_frames format) out
  end.

(** *** mix_in_place *)

(** The loop over [other_frame], with its [continue] and its [break].
    [source] is the buffer the samples are read from when it is an object
    other than the target.  The sum [time_to_frame( start_time ) +
    other_frame] is guarded like the one of [mix_frame]: a sum that leaves
    the [Frame] range wraps to a negative frame ([overflowed_sum_negative]),
    which is skipped, and so are the frames after it; without the
    wrap-around the loop ends there.  No frame is written either way. *)
Fixpoint mix_in_place_frames (source : Audio) (start_time : Second)
    (sampled : list Amplitude) (channel : Channel)
    (other_frames : list Frame) (this : Audio) : Audio :=
  match other_frames with
  | [] => this
  | other_frame :: rest =>
      let this_frame := time_to_frame (get_format this) start_time + other_frame in
      if this_frame <? 0 then
        mix_in_place_frames source start_time sampled channel rest this
      else if get_num_frames this <=? this_frame then this
      else
        mix_in_place_frames source start_time sampled channel rest
          (set_sample this channel this_frame
             (fadd (get_sample this channel this_frame)
                   (fmul (get_sample source channel other_frame)
                         (sampled !!! Z.to_nat other_frame))))
  end.

(** [a.mix_in_place( other, ... )] for a buffer [other] that is not [a]
    itself: the source is read as it was when the call was made. *)
Definition mix_in_place (this other : Audio) (start_time : Second)
    (other_amplitude : Func) : Audio :=
  let resampled :=
    if get_sample_rate this =? get_sample_rate other then create_null
    else resample other (get_sample_rate this) in
  let sr_correct_source :=
    if get_sample_rate this =? get_sample_rate other then other else resampled in
  let num_channels := Z.min (get_num_channels this) (get_num_channels sr_correct_source) in
  let other_amplitude_sampled := sample_function_over_domain sr_correct_source other_amplitude in
  fold_left
    (fun this channel =>
       mix_in_place_frames sr_correct_source start_time other_amplitude_sampled channel
         (seqZ 0 (get_num_frames sr_correct_source)) this)
    (seqZ 0 num_channels) this.

(** [a.mix_in_place( a, ... )]: [other] is the target itself.  The rates
    are equal, so [sr_correct_source] points to the target, and every
    sample of the source is read from the target as the earlier iterations
    left it.  The gains are sampled before the loops, and the bound of the
    frame loop, the frame count, does not change. *)
Fixpoint mix_in_place_self_frames (start_time : Second)
    (sampled : list Amplitude) (channel : Channel)
    (other_frames : list Frame) (this : Audio) : Audio :=
  match other_frames with
  | [] => this
  | other_frame :: rest =>
      let this_frame := time_to_frame (get_format this) start_time + other_frame in
      if this_frame <? 0 then
        mix_in_place_self_frames start_time sampled channel rest this
      else if get_num_frames this <=? this_frame then this
      else
        mix_in_place_self_frames start_time sampled channel rest
          (set_sample this channel this_frame
             (fadd (get_sample this channel this_frame)
                   (fmul (get_sample this channel other_frame)
                         (sampled !!! Z.to_nat other_frame))))
  end.

Definition mix_in_place_self (this : Audio) (start_time : Second)
    (other_amplitude : Func) : Audio :=
  let num_channels := Z.min (get_num_channels this) (get_num_channels this) in
  let other_amplitude_sampled := sample_function_over_domain this other_amplitude in
  fold_left
    (fun target channel =>
       mix_in_place_self_frames start_time other_amplitude_sampled channel
         (seqZ 0 (get_num_frames this)) target)
    (seqZ 0 num_channels) this.

(** *** join *)

(** [std::partial_sum] with a binary operation. *)
Fixpoint partial_sum_from {T : Type} (op : T -> T -> T) (acc : T) (l : list T) : list T :=
  match l with
  | [] => []
  | x :: rest => let acc' := op acc x in acc' :: partial_sum_from op acc' rest
  end.

Definition partial_sum {T : Type} (op : T -> T -> T) (l : list T) : list T :=
  match l with
  | [] => []
  | x :: rest => x :: partial_sum_from op x rest
  end.

(** "Get input Audio lengths", "Sum jumps to get mix positions". *)
Definition join_start_times (ins : list Audio) (offset : Second) : list Second :=
  let jumps := fzero :: map (fun a => get_length (get_format a)) ins in
  partial_sum (fun a b => fadd (fadd a b) offset) (removelast jumps).

Definition join (ins : list Audio) (offset : Second) : Audio :=
  match ins with
  | [] => create_null
  | _ => mix ins (join_start_times ins offset) []
  end.

(** *** select *)

(** The lambda [select] wraps into the balance of input [i]. *)
Definition balance (selection : Func) (i : Z) : Func :=
  fun t =>
    let distance := fabs (fsub (selection t) (of_Z i)) in
    if fge distance fone then fzero
    else fsqrt (fsub fone distance).

Definition select (ins : list Audio) (selection : Func) (start_times : list Second) : Audio :=
  let balances := map (balance selection) (seqZ 0 (Z.of_nat (length ins))) in
  mix_variable_gain ins start_times balances.

(** *** convolve *)

(** [x / std::sqrt( dft_size )]: [dft_size] is an integer, so the square
    root and the division are computed in [double] (binary64) and the
    quotient is rounded when it is stored into the [float] transform
    buffer. *)
Definition to_double (x : float) : spec_float :=
  match x with
  | S754_finite s m e => binary_round 53 1024 s m e
  | _ => x
  end.

Definition of_double (x : spec_float) : float :=
  match x with
  | S754_finite s m e => binary_round prec emax s m e
  | _ => x
  end.

Definition div_sqrt (x : Sample) (dft_size : Z) : float :=
  of_double (SFdiv 53 1024 (to_double x)
               (SFsqrt 53 1024 (binary_normalize 53 1024 dft_size 0 false))).

(** [std::complex<float>::operator*=] *)
Definition cmul (x y : Complex) : Complex :=
  (fsub (fmul (fst x) (fst y)) (fmul (snd x) (snd y)),
   fadd (fmul (fst x) (snd y)) (fmul (snd x) (fst y))).

(** [std::fill( real_begin, real_end, 0 )] followed by the loop that stores
    the scaled samples of one channel at the start of the real buffer. *)
Definition load_real (a : Audio) (channel : Channel) (dft_size : Z) : list float :=
  fold_left
    (fun real frame =>
       <[Z.to_nat frame := div_sqrt (get_sample a channel frame) dft_size]> real)
    (seqZ 0 (get_num_frames a))
    (replicate (Z.to_nat dft_size) fzero).

(** "Multiply spectrums". *)
Definition multiply_spectrums (dft_size : Z) (spectrum this_ffted : list Complex) : list Complex :=
  fold_left
    (fun spectrum bin =>
       <[Z.to_nat bin := cmul (spectrum !!! Z.to_nat bin) (this_ffted !!! Z.to_nat bin)]> spectrum)
    (seqZ 0 (complex_buffer_size dft_size)) spectrum.

(** One iteration of the loop over the channels.  [channel %
    sr_correct_ir->get_num_channels()] is the remainder of a channel that
    is not negative; it is defined when the impulse response has a channel,
    which the theorems on the samples and on the format ask for. *)
Definition convolve_channel (this sr_correct_ir : Audio) (dft_size : Z)
    (out : Audio) (channel : Channel) : Audio :=
  let this_ffted := r2c dft_size (load_real this channel dft_size) in
  let ir_ffted :=
    r2c dft_size
      (load_real sr_correct_ir (Z.rem channel (get_num_channels sr_correct_ir)) dft_size) in
  let real := c2r dft_size (multiply_spectrums dft_size ir_ffted this_ffted) in
  fold_left (fun out frame => set_sample out channel frame (real !!! Z.to_nat frame))
            (seqZ 0 (get_num_frames out)) out.

(** Modelled from the spec: [get_max_sample_magnitude] and
    [modify_volume_in_place], which are not part of the sources at hand:
    "scale every output sample by the reciprocal of the maximum absolute
    sample magnitude found in the full output buffer". *)
Definition get_max_sample_magnitude (a : Audio) : Sample :=
  fold_left (fun m x => if flt m (fabs x) then fabs x else m) (buffer a) fzero.

Definition modify_volume_in_place (a : Audio) (gain : Amplitude) : Audio :=
  mkAudio (get_format a) (map (fun x => fmul x gain) (buffer a)).

Definition convolve (this ir : Audio) (normalize : bool) : Audio :=
  if is_null this then create_null
  else if is_null ir then create_null
  else
    let resampled :=
      if get_sample_rate this =? get_sample_rate ir then create_null
      else resample ir (get_sample_rate this) in
    let sr_correct_ir :=
      if get_sample_rate this =? get_sample_rate ir then ir else resampled in
    let format :=
      mkFormat (get_num_channels this)
               (frame_add (get_num_frames this) (get_num_frames sr_correct_ir))
               (get_sample_rate this) in
    let out := Audio_of_format format in
    let dft_size :=
      wrap_frame
        (2 * power_of_2_container
               (Z.max (get_num_frames this) (get_num_frames sr_correct_ir))) in
    let out :=
      fold_left (convolve_channel this sr_correct_ir dft_size)
                (seqZ 0 (get_num_channels this)) out in
    if normalize then
      let max_sample_mag := get_max_sample_magnitude out in
      modify_volume_in_place out (fdiv fone max_sample_mag)
    else out.

End Combination.

(** ** Specification vocabulary *)

(** A binary32 value of sign [s] whose magnitude is at least [2^k]: an
    infinity, or a normal number, with a mantissa of 24 digits, and an
    exponent of [k - 23] at least. *)
Definition magnitude_at_least (s : bool) (k : Z) (x : float) : Prop :=
  match x with
  | S754_infinity s' => s' = s
  | S754_finite s' m e => s' = s /\ Z.pos (digits2_pos m) = 24 /\ k - 23 <= e
  | _ => False
  end.

(** An output location [(c, g)] receives a contribution of input [me],
    placed at [start_frame], when [c] is one of its channels and
    [g - start_frame] one of its frames. *)
Definition covers (me : Audio) (start_frame : Frame) (c : Channel) (g : Frame) : bool :=
  (c <? get_num_channels me) && (0 <=? g - start_frame) && (g - start_frame <? get_num_frames me).

(** What one input adds to the value [acc] found at [(c, g)]. *)
Definition contribution (me : Audio) (start_frame : Frame) (gain_at : Frame -> Amplitude)
    (c : Channel) (g : Frame) (acc : Sample) : Sample :=
  if covers me start_frame c g then
    fadd acc (fmul (get_sample me c (g - start_frame)) (gain_at (g - start_frame)))
  else acc.

(** The value the write passes leave at [(c, g)]: the contributions of the
    first [k] inputs, added in input order onto [acc]. *)
Definition accumulated (k : nat) (ins : list Audio) (start_frames : list Frame)
    (gains : nat -> Frame -> Amplitude) (c : Channel) (g : Frame) (acc : Sample) : Sample :=
  fold_left
    (fun acc i => contribution (ins !!! i) (start_frames !!! i) (gains i) c g acc)
    (seq 0 k) acc.

(** [m] is the greatest element of the list [l]. *)
Definition is_max_of (m : Z) (l : list Z) : Prop :=
  m ∈ l /\ Forall (fun x => x <= m) l.

(** The list of the output sizes the inputs ask for, one per input. *)
Definition needs (ins : list Audio) (start_frames : list Frame) : list Frame :=
  map (fun i => get_num_frames (ins !!! i) + start_frames !!! i) (seq 0 (length ins)).


(** ** A concrete set of collaborators

    Stand-ins for the collaborators, on which the model runs: the
    rate-relabelling resampler keeps the stored samples, and the transform
    is a placeholder (no theorem below depends on what it computes).  The
    conversions between seconds and frames follow the spec. *)

Module Demo.

(** Conversion of a [float] to an integer: truncation toward zero. *)
Definition ftrunc (x : float) : Z :=
  match x with
  | S754_finite s m e =>
      let magnitude :=
        match e with
        | Zneg p => Z.pos m / 2 ^ Z.pos p
        | _ => Z.pos m * 2 ^ e
        end in
      if s then - magnitude else magnitude
  | _ => 0
  end.

(** Modelled from the spec: [AudioBuffer::time_to_frame], [frame_to_time]
    and [get_length], which are not part of the sources at hand.  "Start
    times (in seconds) are converted to integer frame offsets using the
    common rate; offsets may be negative, fractional-second values
    truncate": a time is multiplied by the sample rate and truncated; a
    frame is divided by the sample rate; the length of a buffer is the time
    of its frame count. *)
Definition demo_time_to_frame (fmt : Format) (t : Second) : Frame :=
  ftrunc (fmul t (of_Z (sample_rate fmt))).

Definition demo_frame_to_time (fmt : Format) (f : Frame) : Second :=
  fdiv (of_Z f) (of_Z (sample_rate fmt)).

Definition demo_get_length (fmt : Format) : Second :=
  demo_frame_to_time fmt (num_frames fmt).

(** One gain per frame of the buffer, the function being taken at the time
    of the frame. *)
Definition demo_sample_function_over_domain (a : Audio) (f : Func) : list Amplitude :=
  sample f 0 (get_num_frames a) (demo_frame_to_time (get_format a) 1).

Definition demo_resample (a : Audio) (sr : FrameRate) : Audio :=
  mkAudio (mkFormat (get_num_channels a) (get_num_frames a) sr) (buffer a).

Definition demo_is_null (a : Audio) : bool :=
  (get_num_channels a =? 0) && (get_num_frames a =? 0).

Definition demo_power_of_2_container (n : Z) : Z := 2 ^ Z.log2_up n.

#[export] Instance collab : Collaborators :=
  {| resample := demo_resample;
     time_to_frame := demo_time_to_frame;
     frame_to_time := demo_frame_to_time;
     get_length := demo_get_length;
     sample_function_over_domain := demo_sample_function_over_domain;
     is_null := demo_is_null;
     null_sample_rate := 48000;
     power_of_2_container := demo_power_of_2_container;
     complex_buffer_size := fun n => n / 2 + 1;
     r2c := fun n real => map (fun x => (x, fzero)) (take (Z.to_nat (n / 2 + 1)) real);
     c2r := fun n spectrum => pad_to (Z.to_nat n) fzero (map fst spectrum) |}.

(** Two small buffers at 4 frames per second: [a] is mono with the
    samples 1, 2, 3; [b] is stereo with the frames (1, 0.5) and (2, 1). *)
Definition a : Audio :=
  mkAudio (mkFormat 1 3 4) [of_Z 1; of_Z 2; of_Z 3].

Definition b : Audio :=
  mkAudio (mkFormat 2 2 4) [of_Z 1; fhalf; of_Z 2; of_Z 1].

(** A third buffer, at 8 frames per second. *)
Definition c8 : Audio :=
  mkAudio (mkFormat 1 2 8) [of_Z 1; of_Z 1].

(** Seven frames and two frames of mono audio at 48000 frames per second. *)
Definition a7 : Audio :=
  mkAudio (mkFormat 1 7 48000) (replicate 7 (of_Z 1)).

Definition b2 : Audio :=
  mkAudio (mkFormat 1 2 48000) [of_Z 2; of_Z 3].

(** A buffer like [b] whose first sample is infinite. *)
Definition binf : Audio :=
  mkAudio (mkFormat 2 2 4) [S754_infinity false; fhalf; of_Z 2; of_Z 1].

(** The unit impulse and a one-frame signal, at 4 frames per second. *)
Definition impulse : Audio :=
  mkAudio (mkFormat 1 1 4) [fone].

Definition one : Audio :=
  mkAudio (mkFormat 1 1 4) [fone].

End Demo.

(** Modelled from the spec: the transform primitive ([FFTHelper] is not
    part of the sources at hand), at size 2.  "Apply forward
    real-to-complex transform", "apply inverse complex-to-real transform":
    the forward transform of [x0; x1] is [x0 + x1; x0 - x1], both bins
    real, and the inverse is the same butterfly; it is not normalised, the
    samples being "divided by sqrt(transform size)" on both sides before
    the transforms.  The other collaborators are those of [Demo]. *)
Module Transform2.

Definition r2c_2 (n : Z) (real : list float) : list Complex :=
  [(fadd (real !!! 0%nat) (real !!! 1%nat), fzero);
   (fsub (real !!! 0%nat) (real !!! 1%nat), fzero)].

Definition c2r_2 (n : Z) (spectrum : list Complex) : list float :=
  [fadd (fst (spectrum !!! 0%nat)) (fst (spectrum !!! 1%nat));
   fsub (fst (spectrum !!! 0%nat)) (fst (spectrum !!! 1%nat))].

#[export] Instance collab : Collaborators :=
  {| resample := Demo.demo_resample;
     time_to_frame := Demo.demo_time_to_frame;
     frame_to_time := Demo.demo_frame_to_time;
     get_length := Demo.demo_get_length;
     sample_function_over_domain := Demo.demo_sample_function_over_domain;
     is_null := Demo.demo_is_null;
     null_sample_rate := 48000;
     power_of_2_container := Demo.demo_power_of_2_container;
     complex_buffer_size := fun n => n / 2 + 1;
     r2c := r2c_2;
     c2r := c2r_2 |}.

End Transform2.

(** ** What the theorems ask of the collaborators and state of the output *)

(** The resampler delivers a well-formed buffer at the rate it is asked for. *)
Definition resample_ok `{Collaborators} : Prop :=
  forall a sr, buffer_ok a ->
    buffer_ok (resample a sr) /\ get_sample_rate (resample a sr) = sr.

(** The gain [mix] applies to frame [local_frame] of input [i]. *)
Definition constant_gains (n : nat) (amplitudes : list Amplitude) : nat -> Frame -> Amplitude :=
  fun i _ => pad_to n fone amplitudes !!! i.

(** The gain [mix_variable_gain] applies to frame [local_frame] of input [i]. *)
Definition variable_gains `{Collaborators} (ins : list Audio) (start_frames : list Frame)
    (amplitudes : list Func) : nat -> Frame -> Amplitude :=
  fun i local_frame =>
    (amplitude_samples ins start_frames amplitudes !!! i) !!! Z.to_nat local_frame.

(** The start frames of a mix of [ins_unmatched] at [start_times]. *)
Definition start_frames_of `{Collaborators} (ins_unmatched : list Audio)
    (start_times : list Second) : list Frame :=
  let ins := reconciled ins_unmatched in
  to_start_frames ins (pad_to (length ins) fzero start_times).

(** [out] is the mix of the inputs [ins] placed at [start_frames]: it has
    the greatest channel count of the inputs, the greatest of the sizes the
    inputs need and of 0 as frame count, their common sample rate, and
    every sample is accumulated from zero. *)
Record mixes_from_zero (ins : list Audio) (start_frames : list Frame)
    (gains : nat -> Frame -> Amplitude) (out : Audio) : Prop := mkMixesFromZero
  { mz_channels : is_max_of (get_num_channels out) (map get_num_channels ins);
    mz_frames : is_max_of (get_num_frames out) (0 :: needs ins start_frames);
    mz_rate : Forall (fun a => get_sample_rate a = get_sample_rate out) ins;
    mz_ok : buffer_ok out;
    mz_samples : forall c g,
      0 <= c < get_num_channels out -> 0 <= g < get_num_frames out ->
      get_sample out c g = accumulated (length ins) ins start_frames gains c g fzero }.

(** ** The remaining helpers of AudioCombination.cpp *)

(** The loop of [do_channel_counts_match], which returns [false] at the
    first input whose channel count differs from [numchannels]. *)
Fixpoint channel_counts_all (numchannels : Channel) (ins : list Audio) : bool :=
  match ins with
  | [] => true
  | a :: rest =>
      if negb (get_num_channels a =? numchannels) then false
      else channel_counts_all numchannels rest
  end.

(** "Check if all channel counts match the first one". *)
Definition do_channel_counts_match (ins : list Audio) : bool :=
  match ins with
  | [] => true
  | _ => channel_counts_all (get_num_channels (ins !!! 0%nat)) ins
  end.

(** [get_max_num_channels] and [get_max_num_frames]: the projection of the
    greatest element [std::max_element] finds (the range is not empty). *)
Definition get_max_num_channels (ins : list Audio) : Channel :=
  max_of get_num_channels ins.

Definition get_max_num_frames (ins : list Audio) : Frame :=
  max_of get_num_frames ins.

(** The real buffer at the end of the iteration of [convolve] for one
    channel: the inverse transform of the product of the two spectra. *)
Definition channel_result `{Collaborators} (this sr_correct_ir : Audio) (dft_size : Z)
    (channel : Channel) : list float :=
  c2r dft_size
    (multiply_spectrums dft_size
       (r2c dft_size
          (load_real sr_correct_ir (Z.rem channel (get_num_channels sr_correct_ir)) dft_size))
       (r2c dft_size (load_real this channel dft_size))).

(** The impulse response [convolve] uses and the transform size it takes. *)
Definition sr_correct_ir_of `{Collaborators} (this ir : Audio) : Audio :=
  if get_sample_rate this =? get_sample_rate ir then ir
  else resample ir (get_sample_rate this).

Definition dft_size_of `{Collaborators} (this ir : Audio) : Z :=
  wrap_frame
    (2 * power_of_2_container
           (Z.max (get_num_frames this) (get_num_frames (sr_correct_ir_of this ir)))).

(** A transform that is exact on a convolution with an impulse: for the
    real buffer that holds [u] at entry 0 and zeros elsewhere and the real
    buffer [x], the inverse transform of the product of the two spectra is
    [x] scaled by [dft_size * u], the transforms not being normalised. *)
Definition impulse_exact `{Collaborators} (dft_size : Z) (u : float) (x : list float) : Prop :=
  c2r dft_size
    (multiply_spectrums dft_size
       (r2c dft_size (<[0%nat := u]> (replicate (Z.to_nat dft_size) fzero)))
       (r2c dft_size x))
  = map (fun xi => fmul (fmul (of_Z dft_size) u) xi) x.

(** ** Function.h

    [Function<I, O>] wraps a callable; its operators build new functions
    pointwise.  The operators that compute on the outputs are modelled at
    [O = float], the instance [Func1x1] and the gains use. *)

Module FunctionH.

Definition Function (I O : Type) : Type := I -> O.

(** The constructors: from a callable, from a constant, and the default. *)
Definition of_constant {I : Type} (t0 : float) : Function I float := fun _ => t0.
Definition default {I : Type} : Function I float := fun _ => of_Z 0.

(** Function application and function composition (the lambda of the
    composition takes an [I] and hands it to [g], so [g] is a function from
    [I] to [I]). *)
Definition apply {I O : Type} (f : Function I O) (t : I) : O := f t.
Definition compose {I O : Type} (f : Function I O) (g : Function I I) : Function I O :=
  fun t => apply f (g t).

(** The arithmetic operators. *)
Definition mul {I : Type} (f r : Function I float) : Function I float :=
  fun t => fmul (apply f t) (r t).
Definition div {I : Type} (f r : Function I float) : Function I float :=
  fun t => fdiv (apply f t) (r t).
Definition add {I : Type} (f r : Function I float) : Function I float :=
  fun t => fadd (apply f t) (r t).
Definition sub {I : Type} (f r : Function I float) : Function I float :=
  fun t => fsub (apply f t) (r t).
Definition neg {I : Type} (f : Function I float) : Function I float :=
  fun t => SFopp (apply f t).

(** [std::clamp], [std::max] and [std::min] on [float], by their
    definitions with [operator<]. *)
Definition std_clamp (v lo hi : float) : float :=
  if flt v lo then lo else if flt hi v then hi else v.
Definition std_max (a b : float) : float := if flt a b then b else a.
Definition std_min (a b : float) : float := if flt b a then b else a.

Definition clamp {I : Type} (a b c : Function I float) : Function I float :=
  fun x => std_clamp (apply a x) (apply b x) (apply c x).
Definition max {I : Type} (a b : Function I float) : Function I float :=
  fun x => std_max (apply a x) (apply b x).
Definition min {I : Type} (a b : Function I float) : Function I float :=
  fun x => std_min (apply a x) (apply b x).

(** [x <= y] on [float], and the values that are not NaN. *)
Definition fle (x y : float) : bool := SFleb x y.
Definition is_nan (x : float) : bool :=
  match x with
  | S754_nan => true
  | _ => false
  end.

End FunctionH.
(** ** binary32 facts *)

Section Binary32.

Lemma times_2_23 (m : positive) : (m * 8388608)%positive = Pos.iter xO m 23.
Proof. rewrite Pos.mul_comm. vm_compute. reflexivity. Qed.

Lemma digits_shift23 (m : positive) :
  Z.pos (digits2_pos (m * 8388608)) = Z.pos (digits2_pos m) + 23.
Proof.
  rewrite times_2_23. cbn [Pos.iter digits2_pos].
  rewrite !Pos2Z.inj_succ. lia.
Qed.

Lemma shr_23 (m : positive) :
  SpecFloat.iter_pos shr_1 23 (Build_shr_record (Z.pos (m * 8388608)) false false)
  = Build_shr_record (Z.pos m) false false.
Proof. rewrite times_2_23. reflexivity. Qed.

(** Multiplying a binary32 value by 1 is exact. *)
Lemma fmul_one_r (x : float) : valid x -> fmul x fone = x.
Proof.
  unfold valid. destruct x as [s|s| |s m e]; cbn.
  - intros _. destruct s; reflexivity.
  - intros _. destruct s; reflexivity.
  - reflexivity.
  - unfold bounded, canonical_mantissa. intros Hb.
    apply andb_true_iff in Hb as [Hcan Hle]. apply Z.eqb_eq in Hcan.
    unfold fmul, SFmul, fone, binary_round_aux, shr_fexp, Zdigits2.
    rewrite digits_shift23.
    replace (Z.pos (digits2_pos m) + 23 + (e + -23)) with (Z.pos (digits2_pos m) + e) by lia.
    rewrite Hcan.
    replace (e - (e + -23)) with 23 by lia.
    cbn [shr shr_record_of_loc]. rewrite shr_23.
    cbn [shr_m loc_of_shr_record round_nearest_even Zdigits2].
    replace (e + -23 + 23) with e by lia.
    rewrite Hcan, Z.sub_diag. cbn [shr shr_m].
    rewrite Hle. destruct s; reflexivity.
Qed.

Lemma same_refl (x : float) : same x x.
Proof. left. reflexivity. Qed.

Lemma same_sym (x y : float) : same x y -> same y x.
Proof. intros [->|[Hx Hy]]; [left; reflexivity|right; split; assumption]. Qed.

Lemma same_trans (x y z : float) : same x y -> same y z -> same x z.
Proof.
  intros [->|[Hx Hy]] [->|[Hy' Hz]]; try (left; reflexivity);
    right; split; assumption.
Qed.

(** Adding a value to [+0] gives the value back, up to the sign of zero:
    [+0 + (-0)] is [+0]. *)
Lemma fadd_zero_l (x : float) : same (fadd fzero x) x.
Proof. destruct x as [[|]|s| |s m e]; cbn; try (left; reflexivity). right. split; reflexivity. Qed.

Lemma fadd_zero_l_exact (x : float) : x <> S754_zero true -> fadd fzero x = x.
Proof. destruct x as [[|]|s| |s m e]; intros Hx; try reflexivity. congruence. Qed.

(** Adding a zero of either sign changes a value at most in the sign of
    zero. *)
Lemma fadd_any_zero_r (x z : float) : is_zero z = true -> same (fadd x z) x.
Proof.
  destruct z as [sz| | |]; try discriminate. intros _.
  destruct x as [[|]|s| |s m e], sz; cbn; try (left; reflexivity);
    right; split; reflexivity.
Qed.

(** Two values that are the same give sums that are the same. *)
Lemma fadd_same_l (x x' y : float) : same x x' -> same (fadd x y) (fadd x' y).
Proof.
  intros [->|[Hx Hx']]; [left; reflexivity|].
  destruct x as [sx| | |]; try discriminate.
  destruct x' as [sx'| | |]; try discriminate.
  destruct y as [sy|sy| |sy my ey]; try (left; reflexivity).
  destruct sx, sx', sy; cbn; try (left; reflexivity); right; split; reflexivity.
Qed.

(** A finite value times a zero is a zero. *)
Lemma fmul_zero_r (x z : float) :
  is_finite x = true -> is_zero z = true -> is_zero (fmul x z) = true.
Proof.
  destruct z as [sz| | |]; try discriminate.
  destruct x as [sx|sx| |sx mx ex]; try discriminate; reflexivity.
Qed.

(** The sum the write passes leave where two inputs overlap with gain 1 is
    the sum of the two samples. *)
Lemma accumulate_two (x y : float) :
  valid x -> valid y ->
  same (fadd (fadd fzero (fmul x fone)) (fmul y fone)) (fadd x y).
Proof.
  intros Hx Hy. rewrite !fmul_one_r by assumption.
  apply fadd_same_l, fadd_zero_l.
Qed.

(** Sums that start and end with [+0]: the value is kept unless it is [-0]. *)
Lemma fadd_zero_both (x : float) :
  x <> S754_zero true -> fadd (fadd fzero x) fzero = x.
Proof.
  destruct x as [[|]|s| |s m e]; intros Hx; try reflexivity. congruence.
Qed.

End Binary32.

(** ** Frame arithmetic *)

Section Frames.

Lemma wrap_frame_value (z : Z) : frame_value (wrap_frame z).
Proof.
  unfold frame_value, wrap_frame, min_frame, max_frame.
  pose proof (Z.mod_pos_bound (z + 2147483648) 4294967296). lia.
Qed.

Lemma wrap_frame_id (z : Z) : frame_value z -> wrap_frame z = z.
Proof.
  unfold frame_value, wrap_frame, min_frame, max_frame. intros Hz.
  rewrite Z.mod_small by lia. lia.
Qed.

(** A sum that fits the [Frame] type is computed exactly. *)
Lemma frame_add_exact (x y : Frame) : frame_value (x + y) -> frame_add x y = x + y.
Proof. apply wrap_frame_id. Qed.

(** The sums the write loops guard: for a start frame and a local frame
    that are values of the [Frame] type, the guard decides the same with
    and without the wrap-around, and a sum that passes it is exact. *)
Lemma guarded_sum (local_frame start_frame n : Frame) :
  frame_value start_frame -> 0 <= local_frame <= max_frame -> n <= max_frame + 1 ->
  let wrapped := frame_add local_frame start_frame in
  let exact := local_frame + start_frame in
  (0 <=? wrapped) && (wrapped <? n) = (0 <=? exact) && (exact <? n)
  /\ ((0 <=? exact) && (exact <? n) = true -> wrapped = exact).
Proof.
  unfold frame_value, frame_add, wrap_frame, min_frame, max_frame.
  intros Hs Hl Hn. cbn zeta.
  destruct (Z_le_gt_dec (local_frame + start_frame) 2147483647) as [Hfit|Hover].
  - rewrite Z.mod_small by lia.
    replace (local_frame + start_frame + 2147483648 - 2147483648)
      with (local_frame + start_frame) by lia.
    split; [reflexivity|intros _; reflexivity].
  - assert (Hwrap : (local_frame + start_frame + 2147483648) mod 4294967296
                    = local_frame + start_frame + 2147483648 - 4294967296).
    { symmetry. apply (Z.mod_unique _ _ 1); lia. }
    rewrite Hwrap. split.
    + replace (0 <=? local_frame + start_frame + 2147483648 - 4294967296 - 2147483648)
        with false by (symmetry; apply Z.leb_gt; lia).
      replace (local_frame + start_frame <? n) with false by (symmetry; apply Z.ltb_ge; lia).
      rewrite andb_false_r. reflexivity.
    + intros Hguard. apply andb_true_iff in Hguard as [_ Hlt]. apply Z.ltb_lt in Hlt. lia.
Qed.

(** A sum of a start frame and a local frame that leaves the [Frame] range
    wraps to a negative frame. *)
Lemma overflowed_sum_negative (local_frame start_frame : Frame) :
  frame_value start_frame -> 0 <= local_frame <= max_frame ->
  max_frame < local_frame + start_frame ->
  frame_add local_frame start_frame < 0.
Proof.
  unfold frame_value, frame_add, wrap_frame, min_frame, max_frame.
  intros Hs Hl Hover.
  assert (Hwrap : (local_frame + start_frame + 2147483648) mod 4294967296
                  = local_frame + start_frame + 2147483648 - 4294967296).
  { symmetry. apply (Z.mod_unique _ _ 1); lia. }
  rewrite Hwrap. lia.
Qed.

(** The body of the innermost lambda of [mix], with the sum as the machine
    computes it, is [mix_frame]: on values of the [Frame] type the
    wrap-around of the guarded sum changes nothing. *)
Lemma mix_frame_wraps (me : Audio) (start_frame : Frame) (gain_at : Frame -> Amplitude)
    (out_num_frames : Frame) (channel : Channel) (out : Audio) (local_frame : Frame) :
  frame_value start_frame -> 0 <= local_frame <= max_frame ->
  out_num_frames <= max_frame + 1 ->
  (let global_frame := frame_add local_frame start_frame in
   if (0 <=? global_frame) && (global_frame <? out_num_frames) then
     set_sample out channel global_frame
       (fadd (get_sample out channel global_frame)
             (fmul (get_sample me channel local_frame) (gain_at local_frame)))
   else out)
  = mix_frame me start_frame gain_at out_num_frames channel out local_frame.
Proof.
  intros Hs Hl Hn. cbn zeta. unfold mix_frame.
  destruct (guarded_sum local_frame start_frame out_num_frames Hs Hl Hn) as [Hguard Hexact].
  cbn zeta in Hguard, Hexact. rewrite Hguard.
  destruct ((0 <=? local_frame + start_frame) && (local_frame + start_frame <? out_num_frames))
    eqn:Hin; [|reflexivity].
  rewrite Hexact by reflexivity. reflexivity.
Qed.

(** Deciding that concrete numbers are values of the [Frame] type. *)
Lemma frame_value_check (z : Z) :
  (min_frame <=? z) && (z <=? max_frame) = true -> frame_value z.
Proof.
  intros Hz. apply andb_true_iff in Hz as [Hlo Hhi].
  split; [apply Z.leb_le, Hlo|apply Z.leb_le, Hhi].
Qed.

Lemma frame_values_check (l : list Z) :
  forallb (fun z => (min_frame <=? z) && (z <=? max_frame)) l = true ->
  Forall frame_value l.
Proof.
  induction l as [|z l IH]; cbn [forallb]; intros Hl; constructor.
  - apply frame_value_check. apply andb_true_iff in Hl as [Hz _]. exact Hz.
  - apply IH. apply andb_true_iff in Hl as [_ Hl]. exact Hl.
Qed.

End Frames.

(** ** Sample storage: reading what was written *)

Section Storage.

Lemma buffer_pos_inj (a : Audio) (c f c' f' : Z) :
  0 <= c < get_num_channels a -> 0 <= f ->
  0 <= c' < get_num_channels a -> 0 <= f' ->
  buffer_pos a c f = buffer_pos a c' f' -> c = c' /\ f = f'.
Proof.
  unfold buffer_pos. intros Hc Hf Hc' Hf' Heq.
  apply Z2Nat.inj in Heq; [|nia|nia].
  assert (f = f') by nia. subst f'. split; [lia|reflexivity].
Qed.

Lemma buffer_pos_lt (a : Audio) (c f : Z) :
  buffer_ok a -> 0 <= c < get_num_channels a -> 0 <= f < get_num_frames a ->
  (buffer_pos a c f < length (buffer a))%nat.
Proof.
  intros [_ _ Hlen] Hc Hf. rewrite Hlen. unfold buffer_pos.
  apply Z2Nat.inj_lt; nia.
Qed.

Lemma set_sample_format (a : Audio) (c f : Z) (x : Sample) :
  get_format (set_sample a c f x) = get_format a.
Proof. reflexivity. Qed.

Lemma set_sample_ok (a : Audio) (c f : Z) (x : Sample) :
  buffer_ok a -> buffer_ok (set_sample a c f x).
Proof.
  intros [Hc Hf Hlen]. split; try assumption.
  cbn. rewrite length_insert. exact Hlen.
Qed.

Lemma get_set_sample_eq (a : Audio) (c f : Z) (x : Sample) :
  buffer_ok a -> 0 <= c < get_num_channels a -> 0 <= f < get_num_frames a ->
  get_sample (set_sample a c f x) c f = x.
Proof.
  intros Hok Hc Hf. unfold get_sample, set_sample, buffer_pos. cbn.
  apply list_lookup_total_insert_eq. apply (buffer_pos_lt a c f); assumption.
Qed.

Lemma get_set_sample_ne (a : Audio) (c f c' f' : Z) (x : Sample) :
  0 <= c < get_num_channels a -> 0 <= f ->
  0 <= c' < get_num_channels a -> 0 <= f' ->
  (c, f) <> (c', f') ->
  get_sample (set_sample a c f x) c' f' = get_sample a c' f'.
Proof.
  intros Hc Hf Hc' Hf' Hne. unfold get_sample, set_sample. cbn.
  apply list_lookup_total_insert_ne. intros Heq.
  change (buffer_pos a c f = buffer_pos a c' f') in Heq.
  apply buffer_pos_inj in Heq; try assumption.
  destruct Heq; subst; congruence.
Qed.

Lemma clear_buffer_format (a : Audio) : get_format (clear_buffer a) = get_format a.
Proof. reflexivity. Qed.

Lemma new_buffer_ok (fmt : Format) :
  0 <= num_channels fmt -> 0 <= num_frames fmt <= max_frame ->
  buffer_ok (clear_buffer (Audio_of_format fmt)).
Proof.
  intros Hc Hf. split; cbn; try assumption.
  rewrite !length_replicate. reflexivity.
Qed.

Lemma get_sample_new_buffer (fmt : Format) (c f : Z) :
  0 <= c < num_channels fmt -> 0 <= f < num_frames fmt ->
  get_sample (clear_buffer (Audio_of_format fmt)) c f = fzero.
Proof.
  intros Hc Hf. unfold get_sample, clear_buffer, Audio_of_format. cbn.
  apply lookup_total_replicate_2. rewrite length_replicate.
  unfold buffer_pos, get_num_channels. cbn. apply Z2Nat.inj_lt; nia.
Qed.

End Storage.

(** ** The write loops of mix *)


Section WriteLoops.

Variables (me : Audio) (start_frame : Frame) (gain_at : Frame -> Amplitude) (n : Frame).

Local Abbreviation frame_step := (mix_frame me start_frame gain_at n).
Local Abbreviation channel_step := (mix_channel me start_frame gain_at n).

Lemma mix_frame_format ch out l : get_format (frame_step ch out l) = get_format out.
Proof.
  unfold mix_frame. cbn.
  destruct (_ && _); reflexivity.
Qed.

Lemma mix_frame_ok ch out l : buffer_ok out -> buffer_ok (frame_step ch out l).
Proof.
  intros Hok. unfold mix_frame. cbn.
  destruct (_ && _); [apply set_sample_ok|]; assumption.
Qed.

Lemma mix_frame_other ch out l c g :
  0 <= ch < get_num_channels out -> 0 <= c < get_num_channels out -> 0 <= g ->
  (c, g) <> (ch, l + start_frame) ->
  get_sample (frame_step ch out l) c g = get_sample out c g.
Proof.
  intros Hch Hc Hg Hne. unfold mix_frame. cbn.
  destruct (_ && _) eqn:Hin; [|reflexivity].
  apply andb_true_iff in Hin as [H0 _]. apply Z.leb_le in H0.
  apply get_set_sample_ne; try assumption. congruence.
Qed.

Lemma mix_frame_hit ch out l :
  buffer_ok out -> n = get_num_frames out ->
  0 <= ch < get_num_channels out -> 0 <= l + start_frame < n ->
  get_sample (frame_step ch out l) ch (l + start_frame)
  = fadd (get_sample out ch (l + start_frame)) (fmul (get_sample me ch l) (gain_at l)).
Proof.
  intros Hok Hn Hch Hl. unfold mix_frame. cbn.
  replace ((0 <=? l + start_frame) && (l + start_frame <? n)) with true.
  - apply get_set_sample_eq; [assumption|assumption|lia].
  - symmetry. apply andb_true_iff. split; [apply Z.leb_le|apply Z.ltb_lt]; lia.
Qed.

(** The loop over a list of distinct frames. *)
Lemma frames_loop_format ch ls out :
  get_format (fold_left (frame_step ch) ls out) = get_format out.
Proof.
  revert out. induction ls as [|l ls IH]; intros out; cbn; [reflexivity|].
  rewrite IH. apply mix_frame_format.
Qed.

Lemma frames_loop_ok ch ls out :
  buffer_ok out -> buffer_ok (fold_left (frame_step ch) ls out).
Proof.
  revert out. induction ls as [|l ls IH]; intros out Hok; cbn; [assumption|].
  apply IH, mix_frame_ok, Hok.
Qed.

Lemma frames_loop_other ch ls out c g :
  0 <= ch < get_num_channels out -> 0 <= c < get_num_channels out -> 0 <= g ->
  c <> ch \/ g - start_frame ∉ ls ->
  get_sample (fold_left (frame_step ch) ls out) c g = get_sample out c g.
Proof.
  revert out. induction ls as [|l ls IH]; intros out Hch Hc Hg Hne; cbn; [reflexivity|].
  rewrite IH.
  - apply mix_frame_other; try assumption.
    intros [= -> ->]. destruct Hne as [Hne|Hne]; [congruence|].
    apply Hne. replace (l + start_frame - start_frame) with l by lia. left.
  - unfold get_num_channels. rewrite mix_frame_format. exact Hch.
  - unfold get_num_channels. rewrite mix_frame_format. exact Hc.
  - exact Hg.
  - destruct Hne as [Hne|Hne]; [left; exact Hne|right].
    intros Hin. apply Hne. right. exact Hin.
Qed.

Lemma frames_loop_hit ch ls out g :
  buffer_ok out -> n = get_num_frames out ->
  0 <= ch < get_num_channels out -> NoDup ls ->
  g - start_frame ∈ ls -> 0 <= g < n ->
  get_sample (fold_left (frame_step ch) ls out) ch g
  = fadd (get_sample out ch g)
         (fmul (get_sample me ch (g - start_frame)) (gain_at (g - start_frame))).
Proof.
  revert out. induction ls as [|l ls IH]; intros out Hok Hn Hch Hnd Hin Hg.
  - inversion Hin.
  - apply NoDup_cons in Hnd as [Hl Hnd]. cbn.
    assert (Hch' : 0 <= ch < get_num_channels (frame_step ch out l)).
    { unfold get_num_channels. rewrite mix_frame_format. exact Hch. }
    apply elem_of_cons in Hin as [Heq|Hin].
    + assert (Hgl : g = l + start_frame) by lia. rewrite Heq. subst g.
      rewrite frames_loop_other; try assumption; try lia.
      * apply mix_frame_hit; assumption.
      * right. rewrite Heq. exact Hl.
    + rewrite IH; try assumption.
      * f_equal. apply mix_frame_other; try assumption; try lia.
        intros [= Hg']. apply Hl. replace l with (g - start_frame) by lia. exact Hin.
      * apply mix_frame_ok, Hok.
      * unfold get_num_frames. rewrite mix_frame_format. exact Hn.
Qed.

Lemma mix_channel_format out ch : get_format (channel_step out ch) = get_format out.
Proof. apply frames_loop_format. Qed.

Lemma mix_channel_ok out ch : buffer_ok out -> buffer_ok (channel_step out ch).
Proof. apply frames_loop_ok. Qed.

Lemma mix_channel_other out ch c g :
  0 <= ch < get_num_channels out -> 0 <= c < get_num_channels out -> 0 <= g ->
  c <> ch \/ ~ 0 <= g - start_frame < get_num_frames me ->
  get_sample (channel_step out ch) c g = get_sample out c g.
Proof.
  intros Hch Hc Hg Hne. apply frames_loop_other; try assumption.
  destruct Hne as [Hne|Hne]; [left; exact Hne|right].
  rewrite elem_of_seqZ. lia.
Qed.

Lemma mix_channel_hit out ch g :
  buffer_ok out -> n = get_num_frames out ->
  0 <= ch < get_num_channels out ->
  0 <= g - start_frame < get_num_frames me -> 0 <= g < n ->
  get_sample (channel_step out ch) ch g
  = fadd (get_sample out ch g)
         (fmul (get_sample me ch (g - start_frame)) (gain_at (g - start_frame))).
Proof.
  intros Hok Hn Hch Hl Hg. apply frames_loop_hit; try assumption.
  - apply NoDup_seqZ.
  - rewrite elem_of_seqZ. lia.
Qed.

(** The loop over a list of distinct channels of the output. *)
Lemma channels_loop_format cs out :
  get_format (fold_left channel_step cs out) = get_format out.
Proof.
  revert out. induction cs as [|ch cs IH]; intros out; cbn; [reflexivity|].
  rewrite IH. apply mix_channel_format.
Qed.

Lemma channels_loop_ok cs out :
  buffer_ok out -> buffer_ok (fold_left channel_step cs out).
Proof.
  revert out. induction cs as [|ch cs IH]; intros out Hok; cbn; [assumption|].
  apply IH, mix_channel_ok, Hok.
Qed.

Lemma channels_loop_other cs out c g :
  Forall (fun ch => 0 <= ch < get_num_channels out) cs ->
  0 <= c < get_num_channels out -> 0 <= g ->
  c ∉ cs \/ ~ 0 <= g - start_frame < get_num_frames me ->
  get_sample (fold_left channel_step cs out) c g = get_sample out c g.
Proof.
  revert out. induction cs as [|ch cs IH]; intros out Hcs Hc Hg Hne; cbn; [reflexivity|].
  apply Forall_cons in Hcs as [Hch Hcs].
  rewrite IH.
  - apply mix_channel_other; try assumption.
    destruct Hne as [Hne|Hne]; [left|right; exact Hne].
    intros ->. apply Hne. left.
  - unfold get_num_channels. rewrite mix_channel_format. exact Hcs.
  - unfold get_num_channels. rewrite mix_channel_format. exact Hc.
  - exact Hg.
  - destruct Hne as [Hne|Hne]; [left|right; exact Hne].
    intros Hin. apply Hne. right. exact Hin.
Qed.

Lemma channels_loop_hit cs out c g :
  buffer_ok out -> n = get_num_frames out ->
  Forall (fun ch => 0 <= ch < get_num_channels out) cs -> NoDup cs ->
  c ∈ cs -> 0 <= g - start_frame < get_num_frames me -> 0 <= g < n ->
  get_sample (fold_left channel_step cs out) c g
  = fadd (get_sample out c g)
         (fmul (get_sample me c (g - start_frame)) (gain_at (g - start_frame))).
Proof.
  revert out. induction cs as [|ch cs IH]; intros out Hok Hn Hcs Hnd Hin Hl Hg.
  - inversion Hin.
  - apply NoDup_cons in Hnd as [Hch' Hnd]. apply Forall_cons in Hcs as [Hch Hcs]. cbn.
    assert (Hcs' : Forall (fun ch0 => 0 <= ch0 < get_num_channels (channel_step out ch)) cs).
    { unfold get_num_channels. rewrite mix_channel_format. exact Hcs. }
    apply elem_of_cons in Hin as [->|Hin].
    + rewrite channels_loop_other; try assumption; try lia.
      * apply mix_channel_hit; assumption.
      * unfold get_num_channels. rewrite mix_channel_format. exact Hch.
      * left. exact Hch'.
    + assert (Hc : 0 <= c < get_num_channels out).
      { rewrite Forall_forall in Hcs. apply Hcs, Hin. }
      rewrite IH; try assumption.
      * f_equal. apply mix_channel_other; try assumption; try lia.
        left. intros ->. apply Hch', Hin.
      * apply mix_channel_ok, Hok.
      * unfold get_num_frames. rewrite mix_channel_format. exact Hn.
Qed.

Lemma mix_input_format out : get_format (mix_input me start_frame gain_at n out) = get_format out.
Proof. apply channels_loop_format. Qed.

Lemma mix_input_ok out : buffer_ok out -> buffer_ok (mix_input me start_frame gain_at n out).
Proof. apply channels_loop_ok. Qed.

(** One input adds its [contribution] to every location of the output. *)
Lemma mix_input_sample out c g :
  buffer_ok out -> n = get_num_frames out ->
  get_num_channels me <= get_num_channels out ->
  0 <= c < get_num_channels out -> 0 <= g < n ->
  get_sample (mix_input me start_frame gain_at n out) c g
  = contribution me start_frame gain_at c g (get_sample out c g).
Proof.
  intros Hok Hn Hle Hc Hg. unfold contribution, covers, mix_input.
  assert (Hcs : Forall (fun ch => 0 <= ch < get_num_channels out) (seqZ 0 (get_num_channels me))).
  { apply Forall_seqZ. lia. }
  destruct (c <? get_num_channels me) eqn:H1; cbn.
  - apply Z.ltb_lt in H1.
    destruct (0 <=? g - start_frame) eqn:H2; cbn.
    + apply Z.leb_le in H2.
      destruct (g - start_frame <? get_num_frames me) eqn:H3.
      * apply Z.ltb_lt in H3. apply channels_loop_hit; try assumption; try lia.
        -- apply NoDup_seqZ.
        -- rewrite elem_of_seqZ. lia.
      * apply Z.ltb_ge in H3. apply channels_loop_other; try assumption; try lia.
    + apply Z.leb_gt in H2. apply channels_loop_other; try assumption; try lia.
  - apply Z.ltb_ge in H1. apply channels_loop_other; try assumption; try lia.
    left. rewrite elem_of_seqZ. lia.
Qed.

End WriteLoops.

(** ** The loop over the inputs *)


Section InputLoop.

Variables (ins : list Audio) (start_frames : list Frame)
          (gains : nat -> Frame -> Amplitude) (n : Frame).

Lemma mix_write_upto_S k out :
  mix_write_upto (S k) ins start_frames gains n out
  = mix_input (ins !!! k) (start_frames !!! k) (gains k) n
      (mix_write_upto k ins start_frames gains n out).
Proof. unfold mix_write_upto. rewrite seq_S, fold_left_app. reflexivity. Qed.

Lemma accumulated_S k c g acc :
  accumulated (S k) ins start_frames gains c g acc
  = contribution (ins !!! k) (start_frames !!! k) (gains k) c g
      (accumulated k ins start_frames gains c g acc).
Proof. unfold accumulated. rewrite seq_S, fold_left_app. reflexivity. Qed.

Lemma mix_write_upto_format k out :
  get_format (mix_write_upto k ins start_frames gains n out) = get_format out.
Proof.
  induction k as [|k IH]; [reflexivity|].
  rewrite mix_write_upto_S, mix_input_format. exact IH.
Qed.

Lemma mix_write_upto_ok k out :
  buffer_ok out -> buffer_ok (mix_write_upto k ins start_frames gains n out).
Proof.
  intros Hok. induction k as [|k IH]; [exact Hok|].
  rewrite mix_write_upto_S. apply mix_input_ok, IH.
Qed.

Lemma mix_write_upto_sample k out c g :
  buffer_ok out -> n = get_num_frames out ->
  (forall i, (i < k)%nat -> get_num_channels (ins !!! i) <= get_num_channels out) ->
  0 <= c < get_num_channels out -> 0 <= g < n ->
  get_sample (mix_write_upto k ins start_frames gains n out) c g
  = accumulated k ins start_frames gains c g (get_sample out c g).
Proof.
  intros Hok Hn Hle Hc Hg. induction k as [|k IH]; [reflexivity|].
  rewrite mix_write_upto_S, accumulated_S, <- IH by (intros; apply Hle; lia).
  apply mix_input_sample.
  - apply mix_write_upto_ok, Hok.
  - unfold get_num_frames. rewrite mix_write_upto_format. exact Hn.
  - unfold get_num_channels at 2. rewrite mix_write_upto_format. apply Hle. lia.
  - unfold get_num_channels. rewrite mix_write_upto_format. exact Hc.
  - exact Hg.
Qed.

End InputLoop.

(** ** Maxima *)


Lemma fold_max_is_max {A : Type} (proj : A -> Z) (l : list A) (m0 : Z) :
  is_max_of (fold_left (fun m a => Z.max m (proj a)) l m0) (m0 :: map proj l).
Proof.
  revert m0. induction l as [|a l IH]; intros m0; cbn.
  - split; [left|]. repeat constructor. lia.
  - destruct (IH (Z.max m0 (proj a))) as [Hin Hall]. split.
    + apply elem_of_cons in Hin as [Heq|Hin].
      * rewrite Heq. destruct (Z.max_spec m0 (proj a)) as [[_ ->]|[_ ->]].
        -- right. left.
        -- left.
      * right. right. exact Hin.
    + apply Forall_cons in Hall as [H0 Hall].
      repeat constructor; [lia|lia|exact Hall].
Qed.

Lemma max_of_is_max {A : Type} `{Inhabited A} (proj : A -> Z) (l : list A) :
  l <> [] -> is_max_of (max_of proj l) (map proj l).
Proof.
  destruct l as [|a l]; [congruence|intros _].
  unfold max_of. cbn. apply fold_max_is_max.
Qed.

Lemma is_max_of_unique (m m' : Z) (l : list Z) :
  is_max_of m l -> is_max_of m' l -> m = m'.
Proof.
  intros [Hin Hall] [Hin' Hall']. rewrite Forall_forall in Hall, Hall'.
  apply Hall' in Hin. apply Hall in Hin'. lia.
Qed.


Lemma fold_left_ext_in {A B : Type} (f h : A -> B -> A) (l : list B) (acc : A) :
  (forall x y, y ∈ l -> f x y = h x y) -> fold_left f l acc = fold_left h l acc.
Proof.
  revert acc. induction l as [|y l IH]; intros acc Hext; cbn; [reflexivity|].
  rewrite Hext by left. apply IH. intros x y' Hin. apply Hext. right. exact Hin.
Qed.

(** The frame count [mix] computes is a value of the [Frame] type that is
    not negative, whatever the inputs. *)
Lemma frames_needed_value (ins : list Audio) (start_frames : list Frame) :
  0 <= frames_needed ins start_frames <= max_frame.
Proof.
  unfold frames_needed.
  destruct (fold_max_is_max
    (fun i => frame_add (get_num_frames (ins !!! i)) (start_frames !!! i))
    (seq 0 (length ins)) 0) as [Hin Hall].
  apply Forall_cons in Hall as [H0 _]. split; [exact H0|].
  apply elem_of_cons in Hin as [->|Hin]; [unfold max_frame; lia|].
  apply list_elem_of_fmap in Hin as (i & -> & _).
  apply wrap_frame_value.
Qed.

(** When the size every input needs fits the [Frame] type, the frame count
    is the greatest of these sizes and of 0. *)
Lemma frames_needed_is_max (ins : list Audio) (start_frames : list Frame) :
  Forall frame_value (needs ins start_frames) ->
  is_max_of (frames_needed ins start_frames) (0 :: needs ins start_frames).
Proof.
  intros Hfit. unfold frames_needed, needs.
  rewrite (fold_left_ext_in _
             (fun acc i => Z.max acc (get_num_frames (ins !!! i) + start_frames !!! i))).
  - exact (fold_max_is_max
      (fun i => get_num_frames (ins !!! i) + start_frames !!! i) (seq 0 (length ins)) 0).
  - intros acc i Hi. rewrite frame_add_exact; [reflexivity|].
    unfold needs in Hfit. rewrite Forall_forall in Hfit. apply Hfit.
    apply list_elem_of_fmap. exists i. split; [reflexivity|exact Hi].
Qed.

(** ** Sample-rate reconciliation *)

Section Reconciliation.

Context {collab : Collaborators}.

Lemma all_match_fold (max_sr : FrameRate) (ins : list Audio) (flag : bool) :
  fold_left (fun flag a => if get_sample_rate a =? max_sr then flag else false) ins flag
  = flag && forallb (fun a => get_sample_rate a =? max_sr) ins.
Proof.
  revert flag. induction ins as [|a ins IH]; intros flag; cbn.
  - rewrite andb_true_r. reflexivity.
  - rewrite IH. destruct (get_sample_rate a =? max_sr), flag; reflexivity.
Qed.

Lemma all_match_true (max_sr : FrameRate) (ins : list Audio) :
  all_match max_sr ins = true <-> Forall (fun a => get_sample_rate a = max_sr) ins.
Proof.
  unfold all_match. rewrite all_match_fold. cbn.
  rewrite forallb_forall, Forall_forall.
  split; intros Hall a Hin.
  - apply Z.eqb_eq, Hall. apply list_elem_of_In, Hin.
  - apply Z.eqb_eq, Hall. apply list_elem_of_In, Hin.
Qed.

(** The outcome of the reconciliation, by cases. *)
Lemma match_sample_rates_cases (ins : list Audio) :
  ins <> [] ->
  let max_sr := max_of get_sample_rate ins in
  (Forall (fun a => get_sample_rate a = max_sr) ins
   /\ match_sample_rates_or_return_null ins = [])
  \/ (~ Forall (fun a => get_sample_rate a = max_sr) ins
      /\ match_sample_rates_or_return_null ins = map (fun a => resample a max_sr) ins).
Proof.
  intros Hne max_sr. unfold match_sample_rates_or_return_null.
  destruct ins as [|first rest]; [congruence|]. fold max_sr.
  destruct (all_match max_sr (first :: rest)) eqn:Hmatch.
  - left. split; [apply all_match_true, Hmatch|reflexivity].
  - right. split; [|reflexivity].
    intros Hall. apply all_match_true in Hall. congruence.
Qed.

Lemma reconciled_cases (ins : list Audio) :
  ins <> [] ->
  let max_sr := max_of get_sample_rate ins in
  (Forall (fun a => get_sample_rate a = max_sr) ins /\ reconciled ins = ins)
  \/ (~ Forall (fun a => get_sample_rate a = max_sr) ins
      /\ reconciled ins = map (fun a => resample a max_sr) ins).
Proof.
  intros Hne max_sr. unfold reconciled.
  destruct (match_sample_rates_cases ins Hne) as [[Hall ->]|[Hall ->]].
  - left. split; [exact Hall|reflexivity].
  - right. split; [exact Hall|].
    destruct ins; [congruence|reflexivity].
Qed.

Lemma reconciled_length (ins : list Audio) : length (reconciled ins) = length ins.
Proof.
  destruct ins as [|first rest]; [reflexivity|].
  destruct (reconciled_cases (first :: rest)) as [[_ ->]|[_ ->]]; try congruence.
  apply length_map.
Qed.

Lemma reconciled_nonempty (ins : list Audio) : ins <> [] -> reconciled ins <> [].
Proof.
  intros Hne Heq. apply (f_equal length) in Heq.
  rewrite reconciled_length in Heq. destruct ins; [congruence|discriminate].
Qed.

Lemma reconciled_same_rate (ins : list Audio) :
  ins <> [] -> Forall (fun a => get_sample_rate a = get_sample_rate (ins !!! 0%nat)) ins ->
  reconciled ins = ins.
Proof.
  intros Hne Hsame.
  destruct (reconciled_cases ins Hne) as [[_ ->]|[Hall _]]; [reflexivity|].
  exfalso. apply Hall.
  destruct (max_of_is_max get_sample_rate ins Hne) as [Hin _].
  apply list_elem_of_fmap in Hin as (a & -> & Hin).
  rewrite Forall_forall in Hsame. pose proof (Hsame a Hin) as Ha.
  apply Forall_forall. intros a' Hin'. rewrite Ha. apply Hsame, Hin'.
Qed.

Lemma reconciled_ok (ins : list Audio) :
  resample_ok -> ins <> [] -> Forall buffer_ok ins ->
  Forall buffer_ok (reconciled ins)
  /\ Forall (fun a => get_sample_rate a = max_of get_sample_rate ins) (reconciled ins).
Proof.
  intros Hres Hne Hok.
  destruct (reconciled_cases ins Hne) as [[Hall ->]|[_ ->]].
  - split; assumption.
  - split; apply Forall_fmap; eapply Forall_impl; try exact Hok; intros a Ha; cbn;
      apply Hres, Ha.
Qed.

End Reconciliation.

(** ** The output of mix *)

Section MixOutput.

Context {collab : Collaborators}.

Lemma mix_unfold (ins_unmatched : list Audio) (start_times : list Second)
    (amplitudes : list Amplitude) :
  ins_unmatched <> [] ->
  let ins := reconciled ins_unmatched in
  let start_frames := start_frames_of ins_unmatched start_times in
  mix ins_unmatched start_times amplitudes
  = mix_write ins start_frames (constant_gains (length ins) amplitudes)
      (num_frames (mix_format ins start_frames))
      (clear_buffer (Audio_of_format (mix_format ins start_frames))).
Proof. destruct ins_unmatched; [congruence|reflexivity]. Qed.

Lemma mix_variable_gain_unfold (ins_unmatched : list Audio) (start_times : list Second)
    (amplitudes : list Func) :
  ins_unmatched <> [] ->
  let ins := reconciled ins_unmatched in
  let start_frames := start_frames_of ins_unmatched start_times in
  mix_variable_gain ins_unmatched start_times amplitudes
  = mix_write ins start_frames (variable_gains ins start_frames amplitudes)
      (num_frames (mix_format ins start_frames))
      (clear_buffer (Audio_of_format (mix_format ins start_frames))).
Proof. destruct ins_unmatched; [congruence|reflexivity]. Qed.

Lemma lookup_total_elem_of {A : Type} `{Inhabited A} (l : list A) (i : nat) :
  (i < length l)%nat -> l !!! i ∈ l.
Proof.
  intros Hi. apply list_elem_of_lookup. exists i.
  apply list_lookup_lookup_total_lt, Hi.
Qed.

(** Both write passes start from the zero-filled buffer of the format the
    "output setup" computes. *)
Lemma mix_write_from_zero (ins : list Audio) (start_frames : list Frame)
    (gains : nat -> Frame -> Amplitude) :
  ins <> [] -> Forall buffer_ok ins ->
  Forall (fun a => get_sample_rate a = get_sample_rate (ins !!! 0%nat)) ins ->
  Forall frame_value (needs ins start_frames) ->
  mixes_from_zero ins start_frames gains
    (mix_write ins start_frames gains (num_frames (mix_format ins start_frames))
       (clear_buffer (Audio_of_format (mix_format ins start_frames)))).
Proof.
  intros Hne Hok Hrate Hfit.
  set (fmt := mix_format ins start_frames).
  set (out := mix_write ins start_frames gains (num_frames fmt) (clear_buffer (Audio_of_format fmt))).
  assert (Hfmt : get_format out = fmt) by apply mix_write_upto_format.
  pose proof (max_of_is_max get_num_channels ins Hne) as Hch.
  pose proof (frames_needed_is_max ins start_frames Hfit) as Hfr.
  assert (Hch0 : 0 <= num_channels fmt).
  { destruct Hch as [_ Hall]. rewrite Forall_forall in Hok. rewrite Forall_forall in Hall.
    assert (Hin : ins !!! 0%nat ∈ ins).
    { apply lookup_total_elem_of. destruct ins; [congruence|cbn; lia]. }
    pose proof (ok_channels _ (Hok _ Hin)) as H0.
    assert (get_num_channels (ins !!! 0%nat) <= max_of get_num_channels ins).
    { apply Hall. apply list_elem_of_fmap. eexists. split; [reflexivity|exact Hin]. }
    cbn. lia. }
  assert (Hfr0 : 0 <= num_frames fmt <= max_frame) by apply frames_needed_value.
  assert (Hok0 : buffer_ok (clear_buffer (Audio_of_format fmt))) by (apply new_buffer_ok; assumption).
  split.
  - unfold get_num_channels. rewrite Hfmt. exact Hch.
  - unfold get_num_frames. rewrite Hfmt. exact Hfr.
  - unfold get_sample_rate at 2. rewrite Hfmt. exact Hrate.
  - apply mix_write_upto_ok, Hok0.
  - unfold get_num_channels, get_num_frames. rewrite Hfmt. intros c g Hc Hg.
    unfold out, mix_write. rewrite mix_write_upto_sample; try assumption.
    + f_equal. apply get_sample_new_buffer; [assumption|lia].
    + reflexivity.
    + intros i Hi. destruct Hch as [_ Hall]. rewrite Forall_forall in Hall.
      apply Hall. apply list_elem_of_fmap. eexists. split; [reflexivity|].
      apply lookup_total_elem_of, Hi.
Qed.

Lemma reconciled_first_rate (ins_unmatched : list Audio) :
  resample_ok -> ins_unmatched <> [] -> Forall buffer_ok ins_unmatched ->
  let ins := reconciled ins_unmatched in
  Forall (fun a => get_sample_rate a = get_sample_rate (ins !!! 0%nat)) ins.
Proof.
  intros Hres Hne Hok ins.
  destruct (reconciled_ok ins_unmatched Hres Hne Hok) as [_ Hrate].
  fold ins in Hrate.
  assert (Hin : ins !!! 0%nat ∈ ins).
  { apply lookup_total_elem_of. pose proof (reconciled_nonempty _ Hne).
    fold ins in H. destruct ins; [congruence|cbn; lia]. }
  rewrite Forall_forall in Hrate. rewrite (Hrate _ Hin).
  apply Forall_forall, Hrate.
Qed.

(** C1.  For a non-empty input list, [mix] and [mix_variable_gain] return
    a buffer with the greatest channel count of the (reconciled) inputs;
    its frame count is the greatest of 0 and of the inputs' frame count
    plus start frame; its sample rate is the rate the inputs share; and
    every sample is the accumulation, from zero, of the inputs'
    contributions.  The frame count an input needs, its frames plus its
    start frame, is asked to fit the 32-bit [Frame] type the code computes
    it in. *)
Theorem mix_output_format (ins_unmatched : list Audio) (start_times : list Second)
    (amplitudes : list Amplitude) (gain_functions : list Func) :
  ins_unmatched <> [] ->
  resample_ok -> Forall buffer_ok ins_unmatched ->
  (length start_times <= length ins_unmatched)%nat ->
  (length amplitudes <= length ins_unmatched)%nat ->
  let ins := reconciled ins_unmatched in
  let start_frames := start_frames_of ins_unmatched start_times in
  Forall frame_value (needs ins start_frames) ->
  mixes_from_zero ins start_frames (constant_gains (length ins) amplitudes)
    (mix ins_unmatched start_times amplitudes)
  /\ mixes_from_zero ins start_frames (variable_gains ins start_frames gain_functions)
       (mix_variable_gain ins_unmatched start_times gain_functions).
Proof.
  intros Hne Hres Hok _ _ ins start_frames Hfit.
  pose proof (reconciled_nonempty _ Hne) as Hne'.
  destruct (reconciled_ok _ Hres Hne Hok) as [Hok' _].
  pose proof (reconciled_first_rate _ Hres Hne Hok) as Hrate.
  split.
  - rewrite mix_unfold by assumption. apply mix_write_from_zero; assumption.
  - rewrite mix_variable_gain_unfold by assumption. apply mix_write_from_zero; assumption.
Qed.

End MixOutput.

(** The stand-in resampler meets what is asked of a resampler. *)
Lemma demo_resample_ok : @resample_ok Demo.collab.
Proof.
  intros a sr [Hc Hf Hlen]. split; [|reflexivity].
  split; assumption.
Qed.

Lemma demo_buffers_ok : buffer_ok Demo.a /\ buffer_ok Demo.b /\ buffer_ok Demo.c8.
Proof. repeat split; cbn; unfold max_frame; lia. Qed.

Section MixOutputWitness.

Import Demo.

Lemma mix_output_format_witness :
  let ins := reconciled [a; c8] in
  let start_frames := start_frames_of [a; c8] [fhalf] in
  mixes_from_zero ins start_frames (constant_gains (length ins) [fhalf])
    (mix [a; c8] [fhalf] [fhalf])
  /\ mixes_from_zero ins start_frames (variable_gains ins start_frames [fun t => t])
       (mix_variable_gain [a; c8] [fhalf] [fun t => t]).
Proof.
  apply mix_output_format.
  - discriminate.
  - exact demo_resample_ok.
  - repeat constructor; apply demo_buffers_ok.
  - cbn. lia.
  - cbn. lia.
  - apply frame_values_check. vm_compute. reflexivity.
Defined.

End MixOutputWitness.

(** ** Mixing one or two inputs *)

Section SmallMixes.

Context {collab : Collaborators}.

Lemma get_sample_elem_of (a : Audio) (c f : Z) :
  buffer_ok a -> 0 <= c < get_num_channels a -> 0 <= f < get_num_frames a ->
  get_sample a c f ∈ buffer a.
Proof.
  intros Hok Hc Hf. apply lookup_total_elem_of, buffer_pos_lt; assumption.
Qed.

Lemma get_sample_valid (a : Audio) (c f : Z) :
  buffer_ok a -> samples_valid a ->
  0 <= c < get_num_channels a -> 0 <= f < get_num_frames a ->
  valid (get_sample a c f).
Proof.
  intros Hok Hvalid Hc Hf. unfold samples_valid in Hvalid.
  rewrite Forall_forall in Hvalid. apply Hvalid, get_sample_elem_of; assumption.
Qed.

Lemma get_sample_finite (a : Audio) (c f : Z) :
  buffer_ok a -> samples_finite a ->
  0 <= c < get_num_channels a -> 0 <= f < get_num_frames a ->
  is_finite (get_sample a c f) = true.
Proof.
  intros Hok Hfin Hc Hf. unfold samples_finite in Hfin.
  rewrite Forall_forall in Hfin. apply Hfin, get_sample_elem_of; assumption.
Qed.

Lemma covers_true (me : Audio) (start_frame : Frame) (c g : Z) :
  c < get_num_channels me -> 0 <= g - start_frame < get_num_frames me ->
  covers me start_frame c g = true.
Proof.
  intros Hc Hg. unfold covers.
  rewrite !andb_true_iff, Z.ltb_lt, Z.leb_le, Z.ltb_lt. lia.
Qed.

Lemma covers_false (me : Audio) (start_frame : Frame) (c g : Z) :
  get_num_channels me <= c \/ g - start_frame < 0 \/ get_num_frames me <= g - start_frame ->
  covers me start_frame c g = false.
Proof.
  intros H. unfold covers.
  destruct (c <? get_num_channels me) eqn:H1; [|reflexivity].
  destruct (0 <=? g - start_frame) eqn:H2; [|reflexivity].
  destruct (g - start_frame <? get_num_frames me) eqn:H3; [|reflexivity].
  apply Z.ltb_lt in H1, H3. apply Z.leb_le in H2. lia.
Qed.

Lemma format_eq (f1 f2 : Format) :
  num_channels f1 = num_channels f2 -> num_frames f1 = num_frames f2 ->
  sample_rate f1 = sample_rate f2 -> f1 = f2.
Proof. destruct f1, f2. cbn. congruence. Qed.

Lemma accumulated_one (a : Audio) (s : Frame) (gains : nat -> Frame -> Amplitude)
    (c g : Z) (acc : Sample) :
  accumulated 1 [a] [s] gains c g acc = contribution a s (gains 0%nat) c g acc.
Proof. reflexivity. Qed.

Lemma accumulated_pair (a b : Audio) (sa sb : Frame) (gains : nat -> Frame -> Amplitude)
    (c g : Z) (acc : Sample) :
  accumulated 2 [a; b] [sa; sb] gains c g acc
  = contribution b sb (gains 1%nat) c g (contribution a sa (gains 0%nat) c g acc).
Proof. reflexivity. Qed.

(** The mix of a single input placed at frame 0. *)
Lemma mix_single (a : Audio) (start_times : list Second) (amplitudes : list Amplitude) :
  buffer_ok a ->
  start_frames_of [a] start_times = [0] ->
  mixes_from_zero [a] [0] (constant_gains 1 amplitudes) (mix [a] start_times amplitudes).
Proof.
  intros Hok Hstart.
  assert (Hrec : reconciled [a] = [a]).
  { apply reconciled_same_rate; [discriminate|]. repeat constructor. }
  rewrite mix_unfold by discriminate. rewrite Hstart, Hrec.
  apply mix_write_from_zero.
  - discriminate.
  - constructor; [exact Hok|constructor].
  - repeat constructor.
  - pose proof (ok_frames _ Hok) as Hf. repeat constructor; unfold min_frame; cbn; lia.
Qed.

(** C2.  Mixing a single buffer at the default start time 0 with the
    default gain 1 returns the buffer: the same format and, at every
    channel and frame, the same sample value. *)
Theorem mix_single_identity (a : Audio) (start_times : list Second)
    (amplitudes : list Amplitude) :
  buffer_ok a -> samples_valid a ->
  pad_to 1 fzero start_times = [fzero] ->
  pad_to 1 fone amplitudes = [fone] ->
  time_to_frame (get_format a) fzero = 0 ->
  let out := mix [a] start_times amplitudes in
  get_format out = get_format a
  /\ length (buffer out) = length (buffer a)
  /\ forall c f, 0 <= c < get_num_channels a -> 0 <= f < get_num_frames a ->
       same (get_sample out c f) (get_sample a c f).
Proof.
  intros Hok Hvalid Hst Hamp Ht2f out.
  assert (Hstart : start_frames_of [a] start_times = [0]).
  { unfold start_frames_of.
    replace (reconciled [a]) with [a]
      by (symmetry; apply reconciled_same_rate; [discriminate|repeat constructor]).
    cbn [length]. rewrite Hst. cbn. rewrite Ht2f. reflexivity. }
  destruct (mix_single a start_times amplitudes Hok Hstart) as [Hch Hfr Hrate Hok' Hsamples].
  fold out in Hch, Hfr, Hrate, Hok', Hsamples.
  assert (Hc : get_num_channels out = get_num_channels a).
  { apply (is_max_of_unique _ _ [get_num_channels a]); [exact Hch|].
    split; [left|repeat constructor; lia]. }
  assert (Hf : get_num_frames out = get_num_frames a).
  { rewrite <- (Z.add_0_r (get_num_frames a)).
    apply (is_max_of_unique _ _ [0; get_num_frames a + 0]); [exact Hfr|].
    pose proof (ok_frames _ Hok).
    split; [right; left|repeat constructor; lia]. }
  split; [|split].
  - apply format_eq; [exact Hc|exact Hf|].
    apply Forall_cons in Hrate as [Hr _]. symmetry. exact Hr.
  - rewrite (ok_length _ Hok'), (ok_length _ Hok), Hc, Hf. reflexivity.
  - intros c f Hcr Hfr'. rewrite Hsamples by lia.
    cbn [length]. rewrite accumulated_one. unfold contribution.
    rewrite covers_true by lia.
    unfold constant_gains. rewrite Hamp. change ([fone] !!! 0%nat) with fone.
    replace (f - 0) with f by lia.
    rewrite fmul_one_r by (apply get_sample_valid; assumption).
    apply fadd_zero_l.
Qed.

(** The mix of two inputs of one sample rate. *)
Lemma reconciled_pair (a b : Audio) :
  get_sample_rate a = get_sample_rate b -> reconciled [a; b] = [a; b].
Proof.
  intros Hrate. apply reconciled_same_rate; [discriminate|].
  repeat constructor. cbn. congruence.
Qed.

Lemma mix_pair (a b : Audio) (start_times : list Second) (amplitudes : list Amplitude)
    (sa sb : Frame) :
  buffer_ok a -> buffer_ok b -> get_sample_rate a = get_sample_rate b ->
  start_frames_of [a; b] start_times = [sa; sb] ->
  frame_value (get_num_frames a + sa) -> frame_value (get_num_frames b + sb) ->
  mixes_from_zero [a; b] [sa; sb] (constant_gains 2 amplitudes)
    (mix [a; b] start_times amplitudes).
Proof.
  intros Hoka Hokb Hrate Hstart Hfa Hfb.
  rewrite mix_unfold by discriminate. rewrite Hstart, reconciled_pair by assumption.
  apply mix_write_from_zero.
  - discriminate.
  - repeat (constructor; [assumption|]). constructor.
  - repeat constructor. cbn. congruence.
  - repeat (constructor; [assumption|]). constructor.
Qed.

Lemma start_frames_of_pair (a b : Audio) (start_times : list Second) (ta tb : Second) :
  get_sample_rate a = get_sample_rate b ->
  pad_to 2 fzero start_times = [ta; tb] ->
  start_frames_of [a; b] start_times
  = [time_to_frame (get_format a) ta; time_to_frame (get_format a) tb].
Proof.
  intros Hrate Hst. unfold start_frames_of. rewrite reconciled_pair by assumption.
  cbn [length]. rewrite Hst. reflexivity.
Qed.

(** Bounds on the format of a mix of two inputs. *)
Lemma mix_pair_bounds (a b out : Audio) (sa sb : Frame) (gains : nat -> Frame -> Amplitude) :
  mixes_from_zero [a; b] [sa; sb] gains out ->
  get_num_channels out = Z.max (get_num_channels a) (get_num_channels b)
  /\ get_num_frames out
     = Z.max 0 (Z.max (get_num_frames a + sa) (get_num_frames b + sb)).
Proof.
  intros [Hch Hfr _ _ _]. split.
  - apply (is_max_of_unique _ _ _ Hch). split.
    + destruct (Z.max_spec (get_num_channels a) (get_num_channels b)) as [[_ ->]|[_ ->]].
      * right. left.
      * left.
    + repeat constructor; lia.
  - apply (is_max_of_unique _ _ _ Hfr). split.
    + change (needs [a; b] [sa; sb]) with [get_num_frames a + sa; get_num_frames b + sb].
      set (x := get_num_frames a + sa). set (y := get_num_frames b + sb).
      destruct (Z.max_spec 0 (Z.max x y)) as [[_ ->]|[_ ->]];
        [destruct (Z.max_spec x y) as [[_ ->]|[_ ->]]|].
      * right. right. left.
      * right. left.
      * left.
    + repeat constructor; cbn; lia.
Qed.

(** C3.  Two buffers of one sample rate mixed at the same start time
    with gain 1 each: at every channel and frame of the output that both
    inputs cover, the sample is the sum of the two inputs' samples; the
    second input is added to what the first one left, it does not replace
    it.  The end frame of each input, its frames plus the start frame, is
    asked to fit the 32-bit [Frame] type. *)
Theorem mix_pair_additive (a b : Audio) (t : Second) (start_times : list Second)
    (amplitudes : list Amplitude) :
  buffer_ok a -> buffer_ok b -> samples_valid a -> samples_valid b ->
  get_sample_rate a = get_sample_rate b ->
  pad_to 2 fzero start_times = [t; t] ->
  pad_to 2 fone amplitudes = [fone; fone] ->
  let start_frame := time_to_frame (get_format a) t in
  let out := mix [a; b] start_times amplitudes in
  frame_value (get_num_frames a + start_frame) ->
  frame_value (get_num_frames b + start_frame) ->
  forall c local_frame,
    0 <= c < Z.min (get_num_channels a) (get_num_channels b) ->
    0 <= local_frame < Z.min (get_num_frames a) (get_num_frames b) ->
    0 <= local_frame + start_frame ->
    same (get_sample out c (local_frame + start_frame))
         (fadd (get_sample a c local_frame) (get_sample b c local_frame)).
Proof.
  intros Hoka Hokb Hva Hvb Hrate Hst Hamp start_frame out Hfita Hfitb c l Hc Hl Hg.
  pose proof (start_frames_of_pair a b start_times t t Hrate Hst) as Hstart.
  fold start_frame in Hstart.
  pose proof (mix_pair a b start_times amplitudes _ _ Hoka Hokb Hrate Hstart Hfita Hfitb)
    as Hmix.
  fold out in Hmix.
  destruct (mix_pair_bounds _ _ _ _ _ _ Hmix) as [Hch Hfr].
  rewrite (mz_samples _ _ _ _ Hmix) by lia.
  cbn [length]. rewrite accumulated_pair. unfold contribution.
  rewrite !covers_true by lia.
  replace (l + start_frame - start_frame) with l by lia.
  unfold constant_gains. rewrite Hamp.
  change ([fone; fone] !!! 0%nat) with fone. change ([fone; fone] !!! 1%nat) with fone.
  apply accumulate_two; apply get_sample_valid; assumption || lia.
Qed.

End SmallMixes.

Section MixSingleWitness.

Import Demo.

Lemma mix_single_identity_witness :
  get_format (mix [b] [] []) = get_format b
  /\ length (buffer (mix [b] [] [])) = length (buffer b)
  /\ same (get_sample (mix [b] [] []) 1 1) (get_sample b 1 1).
Proof.
  destruct (mix_single_identity b [] []) as (Hformat & Hlength & Hsamples).
  - apply demo_buffers_ok.
  - repeat constructor.
  - reflexivity.
  - reflexivity.
  - reflexivity.
  - split; [exact Hformat|split; [exact Hlength|]].
    apply Hsamples; cbn; lia.
Defined.

End MixSingleWitness.

Section MixPairWitness.

Import Demo.

Lemma mix_pair_additive_witness :
  same (get_sample (mix [a; b] [fhalf; fhalf] []) 0
          (1 + time_to_frame (get_format a) fhalf))
       (fadd (get_sample a 0 1) (get_sample b 0 1)).
Proof.
  apply (mix_pair_additive a b fhalf [fhalf; fhalf] []).
  - apply demo_buffers_ok.
  - apply demo_buffers_ok.
  - repeat constructor.
  - repeat constructor.
  - reflexivity.
  - reflexivity.
  - reflexivity.
  - apply frame_value_check. vm_compute. reflexivity.
  - apply frame_value_check. vm_compute. reflexivity.
  - vm_compute. split; [discriminate|reflexivity].
  - vm_compute. split; [discriminate|reflexivity].
  - vm_compute. discriminate.
Defined.

End MixPairWitness.

(** ** Reconciliation of the sample rates *)

Section ReconcileClaim.

Context {collab : Collaborators}.

(** C9.  For a non-empty input list: when all inputs share one sample
    rate the reconciliation returns the empty collection; otherwise it
    returns every input, in order, resampled to the greatest sample rate
    found among the inputs. *)
Theorem reconcile_sample_rates (ins : list Audio) :
  ins <> [] ->
  ((exists r, Forall (fun a => get_sample_rate a = r) ins) ->
     match_sample_rates_or_return_null ins = [])
  /\ (~ (exists r, Forall (fun a => get_sample_rate a = r) ins) ->
      exists max_sr,
        is_max_of max_sr (map get_sample_rate ins)
        /\ match_sample_rates_or_return_null ins = map (fun a => resample a max_sr) ins).
Proof.
  intros Hne. pose proof (max_of_is_max get_sample_rate ins Hne) as Hmax.
  destruct (match_sample_rates_cases ins Hne) as [[Hall Heq]|[Hall Heq]].
  - split; [intros _; exact Heq|].
    intros Hnot. exfalso. apply Hnot. eexists. exact Hall.
  - split.
    + intros [r Hr]. exfalso. apply Hall.
      destruct Hmax as [Hin _]. apply list_elem_of_fmap in Hin as (a & Ha & Hin).
      rewrite Forall_forall in Hr. rewrite Ha, (Hr a Hin).
      apply Forall_forall, Hr.
    + intros _. exists (max_of get_sample_rate ins). split; [exact Hmax|exact Heq].
Qed.

End ReconcileClaim.

Section ReconcileWitness.

Import Demo.

Lemma reconcile_sample_rates_witness :
  match_sample_rates_or_return_null [a; b] = []
  /\ exists max_sr,
       is_max_of max_sr (map get_sample_rate [a; c8])
       /\ match_sample_rates_or_return_null [a; c8]
          = map (fun x => resample x max_sr) [a; c8].
Proof.
  split.
  - apply (reconcile_sample_rates [a; b]); [discriminate|].
    exists 4. repeat constructor.
  - apply (reconcile_sample_rates [a; c8]); [discriminate|].
    intros [r Hr]. apply Forall_cons in Hr as [Ha Hr].
    apply Forall_cons in Hr as [Hc _]. cbn in Ha, Hc. lia.
Defined.

End ReconcileWitness.

(** ** Degenerate inputs *)

Section Degenerate.

Context {collab : Collaborators}.

(** C4.  With an empty input list [mix], [mix_variable_gain] and [join]
    return the null buffer, and so does [convolve] when the signal or
    the impulse response is null; the null buffer has no channel and no
    frame.  (The functions are total: there is no error to raise.) *)
Theorem degenerate_inputs_return_null (start_times : list Second)
    (amplitudes : list Amplitude) (gain_functions : list Func) (offset : Second)
    (this ir : Audio) (normalize : bool) :
  is_null this || is_null ir = true ->
  mix [] start_times amplitudes = create_null
  /\ mix_variable_gain [] start_times gain_functions = create_null
  /\ join [] offset = create_null
  /\ convolve this ir normalize = create_null
  /\ get_num_channels create_null = 0
  /\ get_num_frames create_null = 0
  /\ buffer create_null = [].
Proof.
  intros Hnull. repeat split.
  unfold convolve. destruct (is_null this); [reflexivity|].
  cbn in Hnull. rewrite Hnull. reflexivity.
Qed.

End Degenerate.

Section DegenerateWitness.

Import Demo.

Lemma degenerate_inputs_return_null_witness :
  mix [] [fone] [fhalf] = create_null
  /\ mix_variable_gain [] [fone] [fun t => t] = create_null
  /\ join [] fone = create_null
  /\ convolve a create_null true = create_null
  /\ get_num_channels create_null = 0
  /\ get_num_frames create_null = 0
  /\ buffer create_null = [].
Proof. apply degenerate_inputs_return_null. reflexivity. Defined.

End DegenerateWitness.

(** ** The format of a convolution *)

Section ConvolveFormat.

Context {collab : Collaborators}.

Lemma convolve_channel_format (this sr_correct_ir : Audio) (dft_size : Z)
    (out : Audio) (channel : Channel) :
  get_format (convolve_channel this sr_correct_ir dft_size out channel) = get_format out.
Proof.
  unfold convolve_channel.
  generalize (c2r dft_size
    (multiply_spectrums dft_size
       (r2c dft_size
          (load_real sr_correct_ir (Z.rem channel (get_num_channels sr_correct_ir)) dft_size))
       (r2c dft_size (load_real this channel dft_size)))).
  intros real. generalize (seqZ 0 (get_num_frames out)). intros frames.
  revert out. induction frames as [|f frames IH]; intros out; cbn; [reflexivity|].
  rewrite IH. reflexivity.
Qed.

Lemma convolve_channels_format (this sr_correct_ir : Audio) (dft_size : Z)
    (channels : list Channel) (out : Audio) :
  get_format (fold_left (convolve_channel this sr_correct_ir dft_size) channels out)
  = get_format out.
Proof.
  revert out. induction channels as [|ch channels IH]; intros out; cbn; [reflexivity|].
  rewrite IH. apply convolve_channel_format.
Qed.


End ConvolveFormat.

Section ConvolveFormatWitness.

Import Demo.


End ConvolveFormatWitness.

(** ** Sampled gains *)

Section SampledGains.

Context {collab : Collaborators}.

(** Entry [j] of a sampled function is the function at index [start + j]. *)
Lemma sample_lookup (f : Func) (start end_ : Z) (step : Second) (j : Z) :
  0 <= j < end_ - start ->
  sample f start end_ step !!! Z.to_nat j = f (index_time (start + j) step).
Proof.
  intros Hj. unfold sample.
  rewrite list_lookup_total_alt, list_lookup_fmap, lookup_seqZ_lt by lia.
  cbn. rewrite Z2Nat.id by lia. reflexivity.
Qed.

(** The gain [mix_variable_gain] applies to local frame [l] of input [i]
    is its gain function at the global index [start_frame + l], when the
    end of the sampled range, the start frame plus the frames of the input,
    fits the [Frame] type. *)
Lemma variable_gains_lookup (ins : list Audio) (start_frames : list Frame)
    (amplitudes : list Func) (i : nat) (l : Frame) :
  (i < length ins)%nat -> 0 <= l < get_num_frames (ins !!! i) ->
  frame_value (get_num_frames (ins !!! i) + start_frames !!! i) ->
  variable_gains ins start_frames amplitudes i l
  = (if (i <? length amplitudes)%nat then amplitudes !!! i else level_func)
      (index_time (start_frames !!! i + l) (frame_to_time (get_format (ins !!! i)) 1)).
Proof.
  intros Hi Hl Hfit. unfold variable_gains, amplitude_samples.
  rewrite (list_lookup_total_alt (map _ _)), list_lookup_fmap, lookup_seq_lt by exact Hi.
  cbn -[frame_add]. rewrite frame_add_exact by (rewrite Z.add_comm; exact Hfit).
  cbn. apply sample_lookup. unfold Frame in *. lia.
Qed.

(** The sizes the inputs need, one by one. *)
Lemma needs_lookup (ins : list Audio) (start_frames : list Frame) (i : nat) :
  (i < length ins)%nat -> Forall frame_value (needs ins start_frames) ->
  frame_value (get_num_frames (ins !!! i) + start_frames !!! i).
Proof.
  intros Hi Hfit. unfold needs in Hfit. rewrite Forall_forall in Hfit. apply Hfit.
  apply list_elem_of_fmap. exists i. split; [reflexivity|].
  apply elem_of_seq. lia.
Qed.

End SampledGains.

(** ** mix_in_place *)

Section MixInPlace.

Context {collab : Collaborators}.

Variables (source : Audio) (start_time : Second) (sampled : list Amplitude).

Local Abbreviation frames_loop := (mix_in_place_frames source start_time sampled).

Lemma mix_in_place_frames_format channel ls this :
  get_format (frames_loop channel ls this) = get_format this.
Proof.
  revert this. induction ls as [|f ls IH]; intros this; cbn; [reflexivity|].
  destruct (_ <? 0); [apply IH|].
  destruct (_ <=? _); [reflexivity|]. rewrite IH. reflexivity.
Qed.

Lemma mix_in_place_frames_ok channel ls this :
  buffer_ok this -> buffer_ok (frames_loop channel ls this).
Proof.
  revert this. induction ls as [|f ls IH]; intros this Hok; cbn; [exact Hok|].
  destruct (_ <? 0); [apply IH, Hok|].
  destruct (_ <=? _); [exact Hok|]. apply IH, set_sample_ok, Hok.
Qed.

Lemma mix_in_place_frames_other channel ls this c g :
  0 <= channel < get_num_channels this -> 0 <= c < get_num_channels this -> 0 <= g ->
  c <> channel \/ g - time_to_frame (get_format this) start_time ∉ ls ->
  get_sample (frames_loop channel ls this) c g = get_sample this c g.
Proof.
  revert this. induction ls as [|f ls IH]; intros this Hch Hc Hg Hne; [reflexivity|].
  assert (Hne' : c <> channel \/ g - time_to_frame (get_format this) start_time ∉ ls).
  { destruct Hne as [Hne|Hne]; [left; exact Hne|right].
    intros Hin. apply Hne. right. exact Hin. }
  cbn [mix_in_place_frames].
  destruct (time_to_frame (get_format this) start_time + f <? 0) eqn:Hneg;
    [apply IH; assumption|].
  destruct (get_num_frames this <=? time_to_frame (get_format this) start_time + f)
    eqn:Hbreak; [reflexivity|].
  apply Z.ltb_ge in Hneg. rewrite IH; try assumption.
  apply get_set_sample_ne; try assumption.
  intros [= Hcc Hgg]. destruct Hne as [Hne|Hne]; [congruence|].
  apply Hne. replace (g - time_to_frame (get_format this) start_time) with f by lia. left.
Qed.

Lemma mix_in_place_frames_hit_at channel (T : Frame) (n : nat) : forall lo this f0,
  T = time_to_frame (get_format this) start_time ->
  buffer_ok this -> 0 <= channel < get_num_channels this ->
  lo <= f0 < lo + Z.of_nat n ->
  0 <= T + f0 < get_num_frames this ->
  get_sample (frames_loop channel (seqZ lo (Z.of_nat n)) this) channel (T + f0)
  = fadd (get_sample this channel (T + f0))
         (fmul (get_sample source channel f0) (sampled !!! Z.to_nat f0)).
Proof.
  induction n as [|n IH]; intros lo this f0 HT Hok Hch Hf0 Hin; [lia|].
  rewrite seqZ_cons by lia.
  replace (Z.pred (Z.of_nat (S n))) with (Z.of_nat n) by lia.
  cbn [mix_in_place_frames]. rewrite <- HT.
  destruct (T + lo <? 0) eqn:Hneg.
  - apply Z.ltb_lt in Hneg. apply IH; try assumption. lia.
  - apply Z.ltb_ge in Hneg.
    destruct (get_num_frames this <=? T + lo) eqn:Hbreak.
    + apply Z.leb_le in Hbreak. lia.
    + apply Z.leb_gt in Hbreak.
      assert (Hok' : buffer_ok
                (set_sample this channel (T + lo)
                   (fadd (get_sample this channel (T + lo))
                      (fmul (get_sample source channel lo) (sampled !!! Z.to_nat lo)))))
        by (apply set_sample_ok, Hok).
      destruct (Z.eq_dec f0 lo) as [->|Hne].
      * rewrite mix_in_place_frames_other; try assumption; try lia.
        -- apply get_set_sample_eq; [assumption|assumption|lia].
        -- right. rewrite set_sample_format, <- HT, elem_of_seqZ. lia.
      * rewrite IH; try assumption; try lia.
        f_equal. apply get_set_sample_ne; try assumption; try lia.
        intros [= Heq]. lia.
Qed.

Lemma mix_in_place_frames_hit channel (n : nat) lo this f0 :
  buffer_ok this -> 0 <= channel < get_num_channels this ->
  lo <= f0 < lo + Z.of_nat n ->
  0 <= time_to_frame (get_format this) start_time + f0 < get_num_frames this ->
  get_sample (frames_loop channel (seqZ lo (Z.of_nat n)) this) channel
    (time_to_frame (get_format this) start_time + f0)
  = fadd (get_sample this channel (time_to_frame (get_format this) start_time + f0))
         (fmul (get_sample source channel f0) (sampled !!! Z.to_nat f0)).
Proof. intros. apply mix_in_place_frames_hit_at; auto. Qed.

(** The loop over the channels. *)
Lemma mix_in_place_channels_format (frames : list Frame) cs this :
  get_format (fold_left (fun this channel => frames_loop channel frames this) cs this)
  = get_format this.
Proof.
  revert this. induction cs as [|ch cs IH]; intros this; cbn; [reflexivity|].
  rewrite IH. apply mix_in_place_frames_format.
Qed.

Lemma mix_in_place_channels_other (frames : list Frame) cs this c g :
  Forall (fun ch => 0 <= ch < get_num_channels this) cs ->
  0 <= c < get_num_channels this -> 0 <= g -> c ∉ cs ->
  get_sample (fold_left (fun this channel => frames_loop channel frames this) cs this) c g
  = get_sample this c g.
Proof.
  revert this. induction cs as [|ch cs IH]; intros this Hcs Hc Hg Hne; cbn; [reflexivity|].
  apply Forall_cons in Hcs as [Hch Hcs].
  rewrite IH.
  - apply mix_in_place_frames_other; try assumption.
    left. intros ->. apply Hne. left.
  - unfold get_num_channels. rewrite mix_in_place_frames_format. exact Hcs.
  - unfold get_num_channels. rewrite mix_in_place_frames_format. exact Hc.
  - exact Hg.
  - intros Hin. apply Hne. right. exact Hin.
Qed.

Lemma mix_in_place_channels_hit (n : nat) cs this c f0 :
  buffer_ok this ->
  Forall (fun ch => 0 <= ch < get_num_channels this) cs -> NoDup cs -> c ∈ cs ->
  0 <= f0 < Z.of_nat n ->
  0 <= time_to_frame (get_format this) start_time + f0 < get_num_frames this ->
  get_sample
    (fold_left (fun this channel => frames_loop channel (seqZ 0 (Z.of_nat n)) this) cs this)
    c (time_to_frame (get_format this) start_time + f0)
  = fadd (get_sample this c (time_to_frame (get_format this) start_time + f0))
         (fmul (get_sample source c f0) (sampled !!! Z.to_nat f0)).
Proof.
  revert this. induction cs as [|ch cs IH]; intros this Hok Hcs Hnd Hin Hf0 Hrange.
  - inversion Hin.
  - apply NoDup_cons in Hnd as [Hch' Hnd]. apply Forall_cons in Hcs as [Hch Hcs]. cbn.
    set (this' := frames_loop ch (seqZ 0 (Z.of_nat n)) this).
    assert (Hfmt : get_format this' = get_format this) by apply mix_in_place_frames_format.
    assert (Hcs' : Forall (fun ch0 => 0 <= ch0 < get_num_channels this') cs).
    { unfold get_num_channels. rewrite Hfmt. exact Hcs. }
    apply elem_of_cons in Hin as [->|Hin].
    + rewrite mix_in_place_channels_other; try assumption; try lia.
      * apply mix_in_place_frames_hit; try assumption; lia.
      * unfold get_num_channels. rewrite Hfmt. exact Hch.
    + assert (Hc : 0 <= c < get_num_channels this).
      { rewrite Forall_forall in Hcs. apply Hcs, Hin. }
      rewrite <- Hfmt. rewrite IH; try assumption.
      * rewrite Hfmt. f_equal.
        apply mix_in_place_frames_other; try assumption; try lia.
        left. intros ->. apply Hch', Hin.
      * apply mix_in_place_frames_ok, Hok.
      * unfold get_num_frames. rewrite Hfmt. exact Hrange.
Qed.

End MixInPlace.

(** *** The call whose source is the target itself *)

Section MixInPlaceSelf.

Context {collab : Collaborators}.

Variables (start_time : Second) (sampled : list Amplitude).

Local Abbreviation self_loop := (mix_in_place_self_frames start_time sampled).

Lemma mix_in_place_self_frames_format channel ls this :
  get_format (self_loop channel ls this) = get_format this.
Proof.
  revert this. induction ls as [|f ls IH]; intros this; cbn; [reflexivity|].
  destruct (_ <? 0); [apply IH|].
  destruct (_ <=? _); [reflexivity|]. rewrite IH. reflexivity.
Qed.

Lemma mix_in_place_self_frames_ok channel ls this :
  buffer_ok this -> buffer_ok (self_loop channel ls this).
Proof.
  revert this. induction ls as [|f ls IH]; intros this Hok; cbn; [exact Hok|].
  destruct (_ <? 0); [apply IH, Hok|].
  destruct (_ <=? _); [exact Hok|]. apply IH, set_sample_ok, Hok.
Qed.

Lemma mix_in_place_self_frames_other channel ls this c g :
  0 <= channel < get_num_channels this -> 0 <= c < get_num_channels this -> 0 <= g ->
  c <> channel \/ g - time_to_frame (get_format this) start_time ∉ ls ->
  get_sample (self_loop channel ls this) c g = get_sample this c g.
Proof.
  revert this. induction ls as [|f ls IH]; intros this Hch Hc Hg Hne; [reflexivity|].
  assert (Hne' : c <> channel \/ g - time_to_frame (get_format this) start_time ∉ ls).
  { destruct Hne as [Hne|Hne]; [left; exact Hne|right].
    intros Hin. apply Hne. right. exact Hin. }
  cbn [mix_in_place_self_frames].
  destruct (time_to_frame (get_format this) start_time + f <? 0) eqn:Hneg;
    [apply IH; assumption|].
  destruct (get_num_frames this <=? time_to_frame (get_format this) start_time + f)
    eqn:Hbreak; [reflexivity|].
  apply Z.ltb_ge in Hneg. rewrite IH; try assumption.
  apply get_set_sample_ne; try assumption.
  intros [= Hcc Hgg]. destruct Hne as [Hne|Hne]; [congruence|].
  apply Hne. replace (g - time_to_frame (get_format this) start_time) with f by lia. left.
Qed.

(** What one pass over the frames leaves at the frame it adds source frame
    [f0] to.  The source frame is read from the target: with a start frame
    above 0 it was written by an earlier iteration, or never, and holds its
    final value; otherwise it is written later, or in the same iteration
    after it was read, and holds the value it had before the pass. *)
Lemma mix_in_place_self_frames_hit channel (T : Frame) (n : nat) : forall lo this f0,
  T = time_to_frame (get_format this) start_time ->
  buffer_ok this -> 0 <= channel < get_num_channels this ->
  0 <= lo -> lo <= f0 < lo + Z.of_nat n ->
  0 <= T + f0 < get_num_frames this ->
  get_sample (self_loop channel (seqZ lo (Z.of_nat n)) this) channel (T + f0)
  = fadd (get_sample this channel (T + f0))
         (fmul (if 0 <? T
                then get_sample (self_loop channel (seqZ lo (Z.of_nat n)) this) channel f0
                else get_sample this channel f0)
               (sampled !!! Z.to_nat f0)).
Proof.
  induction n as [|n IH]; intros lo this f0 HT Hok Hch Hlo Hf0 Hin; [lia|].
  rewrite seqZ_cons by lia.
  replace (Z.pred (Z.of_nat (S n))) with (Z.of_nat n) by lia.
  cbn [mix_in_place_self_frames]. rewrite <- HT.
  destruct (T + lo <? 0) eqn:Hneg.
  - apply Z.ltb_lt in Hneg. apply IH; try assumption; lia.
  - apply Z.ltb_ge in Hneg.
    destruct (get_num_frames this <=? T + lo) eqn:Hbreak.
    + apply Z.leb_le in Hbreak. lia.
    + apply Z.leb_gt in Hbreak.
      set (this' := set_sample this channel (T + lo)
                      (fadd (get_sample this channel (T + lo))
                         (fmul (get_sample this channel lo) (sampled !!! Z.to_nat lo)))).
      assert (Hok' : buffer_ok this') by (apply set_sample_ok, Hok).
      assert (HT' : T = time_to_frame (get_format this') start_time) by exact HT.
      assert (Hch' : 0 <= channel < get_num_channels this') by exact Hch.
      destruct (Z.eq_dec f0 lo) as [->|Hne].
      * rewrite mix_in_place_self_frames_other; try assumption; try lia;
          [|right; rewrite <- HT', elem_of_seqZ; lia].
        unfold this' at 1. rewrite get_set_sample_eq by (assumption || lia).
        f_equal. f_equal. destruct (0 <? T) eqn:Hpos; [|reflexivity].
        apply Z.ltb_lt in Hpos.
        rewrite mix_in_place_self_frames_other; try assumption; try lia;
          [|right; rewrite <- HT', elem_of_seqZ; lia].
        unfold this'. symmetry. apply get_set_sample_ne; try assumption; try lia.
        intros [= Heq]. lia.
      * rewrite (IH (Z.succ lo) this' f0) by (assumption || lia).
        f_equal.
        -- unfold this'. apply get_set_sample_ne; try assumption; try lia.
           intros [= Heq]. lia.
        -- f_equal. destruct (0 <? T) eqn:Hpos; [reflexivity|].
           apply Z.ltb_ge in Hpos.
           unfold this'. apply get_set_sample_ne; try assumption; try lia.
           intros [= Heq]. lia.
Qed.

Lemma mix_in_place_self_channels_format (frames : list Frame) cs this :
  get_format (fold_left (fun this channel => self_loop channel frames this) cs this)
  = get_format this.
Proof.
  revert this. induction cs as [|ch cs IH]; intros this; cbn; [reflexivity|].
  rewrite IH. apply mix_in_place_self_frames_format.
Qed.

Lemma mix_in_place_self_channels_other (frames : list Frame) cs this c g :
  Forall (fun ch => 0 <= ch < get_num_channels this) cs ->
  0 <= c < get_num_channels this -> 0 <= g -> c ∉ cs ->
  get_sample (fold_left (fun this channel => self_loop channel frames this) cs this) c g
  = get_sample this c g.
Proof.
  revert this. induction cs as [|ch cs IH]; intros this Hcs Hc Hg Hne; cbn; [reflexivity|].
  apply Forall_cons in Hcs as [Hch Hcs].
  rewrite IH.
  - apply mix_in_place_self_frames_other; try assumption.
    left. intros ->. apply Hne. left.
  - unfold get_num_channels. rewrite mix_in_place_self_frames_format. exact Hcs.
  - unfold get_num_channels. rewrite mix_in_place_self_frames_format. exact Hc.
  - exact Hg.
  - intros Hin. apply Hne. right. exact Hin.
Qed.

Lemma mix_in_place_self_channels_hit (n : nat) cs this c f0 :
  buffer_ok this ->
  Forall (fun ch => 0 <= ch < get_num_channels this) cs -> NoDup cs -> c ∈ cs ->
  0 <= f0 < Z.of_nat n ->
  0 <= time_to_frame (get_format this) start_time + f0 < get_num_frames this ->
  let T := time_to_frame (get_format this) start_time in
  let final :=
    fold_left (fun this channel => self_loop channel (seqZ 0 (Z.of_nat n)) this) cs this in
  get_sample final c (T + f0)
  = fadd (get_sample this c (T + f0))
         (fmul (if 0 <? T then get_sample final c f0 else get_sample this c f0)
               (sampled !!! Z.to_nat f0)).
Proof.
  revert this. induction cs as [|ch cs IH]; intros this Hok Hcs Hnd Hin Hf0 Hrange T final.
  - inversion Hin.
  - apply NoDup_cons in Hnd as [Hch' Hnd]. apply Forall_cons in Hcs as [Hch Hcs].
    set (this' := self_loop ch (seqZ 0 (Z.of_nat n)) this).
    assert (Hfmt : get_format this' = get_format this)
      by apply mix_in_place_self_frames_format.
    assert (Hcs' : Forall (fun ch0 => 0 <= ch0 < get_num_channels this') cs).
    { unfold get_num_channels. rewrite Hfmt. exact Hcs. }
    assert (Hfinal : final
              = fold_left (fun this channel => self_loop channel (seqZ 0 (Z.of_nat n)) this)
                  cs this') by reflexivity.
    apply elem_of_cons in Hin as [->|Hin].
    + assert (Hsame : forall g, 0 <= g -> get_sample final ch g = get_sample this' ch g).
      { intros g Hg. rewrite Hfinal. apply mix_in_place_self_channels_other; try assumption.
        unfold get_num_channels. rewrite Hfmt. exact Hch. }
      rewrite !Hsame by (unfold T; lia).
      apply (mix_in_place_self_frames_hit ch T n 0 this f0); try assumption; try reflexivity; lia.
    + assert (Hc : 0 <= c < get_num_channels this).
      { rewrite Forall_forall in Hcs. apply Hcs, Hin. }
      assert (Hne : c <> ch) by (intros ->; apply Hch', Hin).
      assert (Hkeep : forall g, 0 <= g -> get_sample this' c g = get_sample this c g).
      { intros g Hg. apply mix_in_place_self_frames_other; try assumption. left. exact Hne. }
      assert (HT' : time_to_frame (get_format this') start_time = T)
        by (rewrite Hfmt; reflexivity).
      pose proof (IH this') as IH'. cbn zeta in IH'. rewrite HT' in IH'.
      rewrite <- Hfinal in IH'. rewrite IH'; try assumption.
      * rewrite !Hkeep by (unfold T; lia). reflexivity.
      * apply mix_in_place_self_frames_ok, Hok.
      * unfold get_num_frames. rewrite Hfmt. exact Hrange.
Qed.

End MixInPlaceSelf.

Section MixInPlaceGain.

Context {collab : Collaborators}.


End MixInPlaceGain.

Section MixInPlaceWitness.

Import Demo.


End MixInPlaceWitness.

(** ** join *)

Section Join.

Context {collab : Collaborators}.

Lemma partial_sum_from_length {T : Type} (op : T -> T -> T) (acc : T) (l : list T) :
  length (partial_sum_from op acc l) = length l.
Proof.
  revert acc. induction l as [|x l IH]; intros acc; cbn; [reflexivity|].
  rewrite IH. reflexivity.
Qed.

Lemma partial_sum_from_lookup {T : Type} (op : T -> T -> T) (l : list T) :
  forall (acc : T) (k : nat), (k < length l)%nat ->
  partial_sum_from op acc l !! k = Some (fold_left op (take (S k) l) acc).
Proof.
  induction l as [|x l IH]; intros acc k Hk; cbn in Hk; [lia|].
  destruct k as [|k]; cbn.
  - rewrite take_0. reflexivity.
  - apply IH. lia.
Qed.

Lemma removelast_take {T : Type} (l : list T) :
  removelast l = take (length l - 1) l.
Proof.
  induction l as [|x l IH]; [reflexivity|].
  destruct l as [|y l]; [reflexivity|].
  change (removelast (x :: y :: l)) with (x :: removelast (y :: l)).
  rewrite IH. cbn. rewrite Nat.sub_0_r. reflexivity.
Qed.

(** The step of the schedule: the duration of an input and the offset are
    added, in this order, to the start time of the input. *)
Lemma fold_left_map_step (offset : Second) (l : list Audio) (acc : Second) :
  fold_left (fun x y => fadd (fadd x y) offset)
            (map (fun a => get_length (get_format a)) l) acc
  = fold_left (fun t a => fadd (fadd t (get_length (get_format a))) offset) l acc.
Proof.
  revert acc. induction l as [|a l IH]; intros acc; cbn; [reflexivity|]. apply IH.
Qed.

Lemma join_start_times_length (ins : list Audio) (offset : Second) :
  ins <> [] -> length (join_start_times ins offset) = length ins.
Proof.
  intros Hne. unfold join_start_times.
  destruct ins as [|a ins]; [congruence|].
  change (removelast (fzero :: map (fun a => get_length (get_format a)) (a :: ins)))
    with (fzero :: removelast (map (fun a => get_length (get_format a)) (a :: ins))).
  cbn [partial_sum length]. rewrite partial_sum_from_length, removelast_take.
  rewrite length_take, length_map. cbn [length]. lia.
Qed.

Lemma join_start_times_lookup (ins : list Audio) (offset : Second) (k : nat) :
  (k < length ins)%nat ->
  join_start_times ins offset !! k
  = Some (fold_left (fun t a => fadd (fadd t (get_length (get_format a))) offset)
                    (take k ins) fzero).
Proof.
  intros Hk. unfold join_start_times.
  destruct ins as [|a ins]; [cbn in Hk; lia|].
  change (removelast (fzero :: map (fun a => get_length (get_format a)) (a :: ins)))
    with (fzero :: removelast (map (fun a => get_length (get_format a)) (a :: ins))).
  cbn [partial_sum].
  destruct k as [|k]; [reflexivity|].
  rewrite lookup_cons.
  rewrite removelast_take, length_map.
  cbn [length] in *.
  rewrite partial_sum_from_lookup by (rewrite length_take, length_map; cbn [length]; lia).
  rewrite take_take. replace (S k `min` (S (length ins) - 1))%nat with (S k) by lia.
  rewrite <- fmap_take. apply f_equal, fold_left_map_step.
Qed.

End Join.

Section JoinClaim.

Context {collab : Collaborators}.


End JoinClaim.

Section JoinWitness.

Import Demo.



End JoinWitness.

(** ** binary32: the magnitude of rounded values *)

Section Magnitude.

Lemma digits_bounds (p : positive) :
  2 ^ (Z.pos (digits2_pos p) - 1) <= Z.pos p < 2 ^ Z.pos (digits2_pos p).
Proof.
  induction p as [p IH|p IH|]; cbn [digits2_pos]; [| |cbn; lia].
  - rewrite Pos2Z.inj_succ, (Pos2Z.inj_xI p). set (d := Z.pos (digits2_pos p)) in *.
    replace (Z.succ d - 1) with (Z.succ (d - 1)) by lia.
    assert (0 <= d - 1) by (unfold d; lia).
    rewrite !Z.pow_succ_r by lia. lia.
  - rewrite Pos2Z.inj_succ, (Pos2Z.inj_xO p). set (d := Z.pos (digits2_pos p)) in *.
    replace (Z.succ d - 1) with (Z.succ (d - 1)) by lia.
    assert (0 <= d - 1) by (unfold d; lia).
    rewrite !Z.pow_succ_r by lia. lia.
Qed.

Lemma digits_unique (p : positive) (d : Z) :
  2 ^ (d - 1) <= Z.pos p < 2 ^ d -> Z.pos (digits2_pos p) = d.
Proof.
  intros [Hlo Hhi]. pose proof (digits_bounds p) as [Hlo' Hhi'].
  set (D := Z.pos (digits2_pos p)) in *. assert (0 < D) by (unfold D; lia).
  destruct (Z.lt_trichotomy D d) as [Hlt|[Heq|Hgt]]; [|exact Heq|].
  - assert (2 ^ D <= 2 ^ (d - 1)) by (apply Z.pow_le_mono_r; lia). lia.
  - assert (0 <= d).
    { destruct (Z_lt_le_dec d 0) as [Hneg|]; [|assumption].
      rewrite Z.pow_neg_r in Hhi by exact Hneg. lia. }
    assert (2 ^ d <= 2 ^ (D - 1)) by (apply Z.pow_le_mono_r; lia). lia.
Qed.

Lemma digits_at_least (p : positive) (d : Z) :
  2 ^ (d - 1) <= Z.pos p -> d <= Z.pos (digits2_pos p).
Proof.
  intros Hlo. pose proof (digits_bounds p) as [_ Hhi].
  set (D := Z.pos (digits2_pos p)) in *. assert (0 < D) by (unfold D; lia).
  destruct (Z_le_gt_dec d D) as [|Hgt]; [assumption|].
  assert (2 ^ D <= 2 ^ (d - 1)) by (apply Z.pow_le_mono_r; lia). lia.
Qed.

Lemma iter_xO_value (m d : positive) :
  Z.pos (Pos.iter xO m d) = Z.pos m * 2 ^ Z.pos d.
Proof.
  induction d as [|d IH] using Pos.peano_ind.
  - cbn. lia.
  - rewrite Pos.iter_succ, (Pos2Z.inj_xO (Pos.iter xO m d)), IH, Pos2Z.inj_succ, Z.pow_succ_r by lia. lia.
Qed.

Lemma shr_1_m (mrs : shr_record) :
  0 <= shr_m mrs -> shr_m (shr_1 mrs) = shr_m mrs / 2.
Proof.
  destruct mrs as [m r s]. cbn [shr_m]. intros Hm.
  destruct m as [|[p|p|]|p]; cbn [shr_1 shr_m]; try lia.
  - reflexivity.
  - rewrite (Pos2Z.inj_xI p). apply (Z.div_unique _ _ _ 1); lia.
  - rewrite (Pos2Z.inj_xO p). apply (Z.div_unique _ _ _ 0); lia.
  - reflexivity.
Qed.

Lemma shr_iter_m (p : positive) : forall mrs : shr_record,
  0 <= shr_m mrs ->
  shr_m (SpecFloat.iter_pos shr_1 p mrs) = shr_m mrs / 2 ^ Z.pos p.
Proof.
  induction p as [p IH|p IH|]; intros mrs Hm; cbn [SpecFloat.iter_pos].
  - assert (H1 : 0 <= shr_m (shr_1 mrs)) by (rewrite shr_1_m by exact Hm; apply Z.div_pos; lia).
    assert (H2 : 0 <= shr_m (SpecFloat.iter_pos shr_1 p (shr_1 mrs))).
    { rewrite IH by exact H1. apply Z.div_pos; [exact H1|]. apply Z.pow_pos_nonneg; lia. }
    rewrite IH by exact H2. rewrite IH by exact H1. rewrite shr_1_m by exact Hm.
    assert (Hpow : 0 < 2 ^ Z.pos p) by (apply Z.pow_pos_nonneg; lia).
    rewrite !Z.div_div by lia.
    rewrite (Pos2Z.inj_xI p). replace (2 * Z.pos p + 1) with (Z.succ (Z.pos p + Z.pos p)) by lia.
    rewrite Z.pow_succ_r, Z.pow_add_r by lia. f_equal; lia.
  - assert (H2 : 0 <= shr_m (SpecFloat.iter_pos shr_1 p mrs)).
    { rewrite IH by exact Hm. apply Z.div_pos; [exact Hm|]. apply Z.pow_pos_nonneg; lia. }
    rewrite IH by exact H2. rewrite IH by exact Hm.
    assert (Hpow : 0 < 2 ^ Z.pos p) by (apply Z.pow_pos_nonneg; lia).
    rewrite Z.div_div by lia.
    rewrite (Pos2Z.inj_xO p). replace (2 * Z.pos p) with (Z.pos p + Z.pos p) by lia.
    rewrite Z.pow_add_r by lia. reflexivity.
  - rewrite shr_1_m by exact Hm. reflexivity.
Qed.



Lemma round_nearest_even_bounds (m : Z) (l : location) :
  m <= round_nearest_even m l <= m + 1.
Proof. destruct l as [|[| |]]; cbn; try destruct (Z.even m); lia. Qed.

Lemma binary_round_aux_magnitude (s : bool) (M : positive) (E k : Z) :
  24 <= Z.pos (digits2_pos M) -> k + 1 <= Z.pos (digits2_pos M) + E -> -125 <= k ->
  magnitude_at_least s k (binary_round_aux prec emax s (Z.pos M) E loc_Exact).
Proof.
  intros HD Hk Hk0. pose proof (digits_bounds M) as [Hlo Hhi].
  unfold binary_round_aux, shr_fexp. cbn [Zdigits2 shr_record_of_loc].
  set (D := Z.pos (digits2_pos M)) in *.
  unfold fexp, emin, prec, emax.
  rewrite (Z.max_l (D + E - 24)) by lia.
  replace (D + E - 24 - E) with (D - 24) by lia.
  destruct (D - 24) as [|p|p] eqn:Hn; try lia.
  - cbn [shr shr_m loc_of_shr_record round_nearest_even Zdigits2]. fold D.
    rewrite (Z.max_l (D + E - 24)) by lia.
    replace (D + E - 24 - E) with 0 by lia. cbn [shr shr_m].
    destruct (E <=? 128 - 24); cbn [magnitude_at_least]; [|reflexivity].
    split; [reflexivity|]. fold D. lia.
  - cbn [shr].
    set (mrs1 := SpecFloat.iter_pos shr_1 p _).
    assert (Hm1 : shr_m mrs1 = Z.pos M / 2 ^ Z.pos p) by (apply shr_iter_m; cbn; lia).
    assert (Hpow : 0 < 2 ^ Z.pos p) by (apply Z.pow_pos_nonneg; lia).
    assert (Hlo1 : 2 ^ 23 <= shr_m mrs1).
    { rewrite Hm1. apply Z.div_le_lower_bound; [exact Hpow|].
      replace (D - 1) with (Z.pos p + 23) in Hlo by lia.
      rewrite Z.pow_add_r in Hlo by lia. exact Hlo. }
    assert (Hhi1 : shr_m mrs1 < 2 ^ 24).
    { rewrite Hm1. apply Z.div_lt_upper_bound; [exact Hpow|].
      replace D with (Z.pos p + 24) in Hhi by lia.
      rewrite Z.pow_add_r in Hhi by lia. exact Hhi. }
    pose proof (round_nearest_even_bounds (shr_m mrs1) (loc_of_shr_record mrs1)) as Hround.
    destruct (round_nearest_even (shr_m mrs1) (loc_of_shr_record mrs1)) as [|q|q] eqn:Hq;
      try lia.
    cbn [Zdigits2].
    destruct (Z.eq_dec (Z.pos q) (2 ^ 24)) as [Heq|Hne].
    + assert (q = 16777216%positive) by (apply Pos2Z.inj; exact Heq). subst q.
      change (Z.pos (digits2_pos 16777216)) with 25.
      rewrite (Z.max_l (25 + (E + Z.pos p) - 24)) by lia.
      replace (25 + (E + Z.pos p) - 24 - (E + Z.pos p)) with 1 by lia.
      cbn [shr SpecFloat.iter_pos shr_1 shr_m].
      destruct (E + Z.pos p + 1 <=? 128 - 24); cbn [magnitude_at_least]; [|reflexivity].
      split; [reflexivity|]. split; [reflexivity|]. lia.
    + assert (H24 : Z.pos (digits2_pos q) = 24) by (apply digits_unique; lia).
      rewrite H24.
      rewrite (Z.max_l (24 + (E + Z.pos p) - 24)) by lia.
      replace (24 + (E + Z.pos p) - 24 - (E + Z.pos p)) with 0 by lia.
      cbn [shr shr_m].
      destruct (E + Z.pos p <=? 128 - 24); cbn [magnitude_at_least]; [|reflexivity].
      split; [reflexivity|]. split; [exact H24|]. lia.
Qed.

Lemma digits_iter_xO (m d : positive) :
  Z.pos (digits2_pos (Pos.iter xO m d)) = Z.pos (digits2_pos m) + Z.pos d.
Proof.
  induction d as [|d IH] using Pos.peano_ind.
  - cbn [Pos.iter digits2_pos]. rewrite Pos2Z.inj_succ. lia.
  - rewrite Pos.iter_succ. cbn [digits2_pos]. rewrite Pos2Z.inj_succ, IH, Pos2Z.inj_succ. lia.
Qed.

Lemma binary_round_magnitude (s : bool) (P : positive) (e k : Z) :
  k + 1 <= Z.pos (digits2_pos P) + e -> -125 <= k ->
  magnitude_at_least s k (binary_round prec emax s P e).
Proof.
  intros Hk Hk0. unfold binary_round, shl_align, fexp, emin, prec, emax.
  set (D := Z.pos (digits2_pos P)) in *.
  rewrite (Z.max_l (D + e - 24)) by lia.
  replace (D + e - 24 - e) with (D - 24) by lia.
  destruct (D - 24) as [|d|d] eqn:Hn.
  - apply binary_round_aux_magnitude; fold D; lia.
  - apply binary_round_aux_magnitude; fold D; lia.
  - apply binary_round_aux_magnitude; try rewrite digits_iter_xO; fold D; lia.
Qed.

(** An integer of [2^k] at least converts to a value of magnitude [2^k] at
    least. *)
Lemma of_Z_magnitude (i k : Z) :
  0 <= k -> 2 ^ k <= i -> magnitude_at_least false k (of_Z i).
Proof.
  intros Hk Hi. assert (0 < 2 ^ k) by (apply Z.pow_pos_nonneg; lia).
  destruct i as [|p|p]; try lia.
  unfold of_Z, binary_normalize. apply binary_round_magnitude; [|lia].
  pose proof (digits_at_least p (k + 1)) as Hd.
  replace (k + 1 - 1) with k in Hd by lia. lia.
Qed.

Lemma magnitude_ge_one (s : bool) (x : float) :
  magnitude_at_least s 0 x -> fge (fabs x) fone = true.
Proof.
  destruct x as [|s'| |s' m e]; cbn [magnitude_at_least]; try contradiction.
  - intros _. reflexivity.
  - intros (_ & Hd & He). unfold fge, fabs, SFabs, SFleb, SFcompare, fone.
    destruct (Z.compare_spec (-23) e) as [Heq|Hlt|Hgt]; try lia; try reflexivity.
    change (Pos.compare_cont Eq 8388608 m) with (Pos.compare 8388608 m).
    destruct (Pos.compare_spec 8388608 m) as [_|_|Hlt]; try reflexivity.
    exfalso. pose proof (digits_bounds m) as [Hlo _]. rewrite Hd in Hlo.
    change (2 ^ (24 - 1)) with 8388608 in Hlo. lia.
Qed.

Lemma fsub_zero_magnitude (k : Z) (x : float) :
  magnitude_at_least false k x -> magnitude_at_least true k (fsub fzero x).
Proof.
  destruct x as [|s'| |s' m e]; cbn [magnitude_at_least]; try contradiction.
  - intros ->. reflexivity.
  - intros (-> & Hd). split; [reflexivity|exact Hd].
Qed.

(** 1 minus a value of 2 at least is a negative value of magnitude 1 at
    least. *)
Lemma fsub_one_magnitude (x : float) :
  magnitude_at_least false 1 x -> magnitude_at_least true 0 (fsub fone x).
Proof.
  destruct x as [|s'| |s' m e]; cbn [magnitude_at_least]; try contradiction.
  - intros ->. reflexivity.
  - intros (-> & Hd & He). unfold fsub, SFsub, fone.
    rewrite Z.min_l by lia.
    unfold shl_align at 1. change (-23 - -23) with 0. cbn [fst cond_Zopp].
    unfold shl_align. destruct (-23 - e) as [|d|d] eqn:Hn; try lia. cbn [fst].
    pose proof (iter_xO_value m d) as Hval.
    pose proof (digits_bounds m) as [Hlo _]. rewrite Hd in Hlo.
    change (2 ^ (24 - 1)) with 8388608 in Hlo.
    assert (Hpow : 2 ^ 1 <= 2 ^ Z.pos d) by (apply Z.pow_le_mono_r; lia).
    change (2 ^ 1) with 2 in Hpow.
    assert (Hbig : 16777216 <= Z.pos (Pos.iter xO m d)) by nia.
    destruct (Z.pos 8388608 - Z.pos (Pos.iter xO m d)) as [|q|q] eqn:Hq; try lia.
    cbn [binary_normalize]. apply binary_round_magnitude; [|lia].
    pose proof (digits_at_least q 24) as Hdq.
    change (2 ^ (24 - 1)) with 8388608 in Hdq. lia.
Qed.

End Magnitude.

(** ** select *)

Section Balance.

(** The balances under a selection that is constantly 0 or constantly 1:
    the input selected has balance 1 and every other input balance 0. *)
Lemma balance_zero_off (i : Z) (t : Second) :
  1 <= i -> balance (fun _ => fzero) i t = fzero.
Proof.
  intros Hi. unfold balance.
  rewrite (magnitude_ge_one true); [reflexivity|].
  apply fsub_zero_magnitude, of_Z_magnitude; [lia|]. change (2 ^ 0) with 1. lia.
Qed.

Lemma balance_one_off (i : Z) (t : Second) :
  2 <= i -> balance (fun _ => fone) i t = fzero.
Proof.
  intros Hi. unfold balance.
  rewrite (magnitude_ge_one true); [reflexivity|].
  apply fsub_one_magnitude, of_Z_magnitude; [lia|]. change (2 ^ 1) with 2. lia.
Qed.

(** The balances of the first two inputs under the three constant
    selections. *)
Lemma balance_constants :
  balance (fun _ => fzero) 0 fzero = fone
  /\ balance (fun _ => fone) 0 fzero = fzero /\ balance (fun _ => fone) 1 fzero = fone
  /\ balance (fun _ => fhalf) 0 fzero = fsqrt fhalf
  /\ balance (fun _ => fhalf) 1 fzero = fsqrt fhalf
  /\ is_zero (fsqrt fhalf) = false.
Proof. vm_compute. repeat split. Qed.

Lemma fadd_fzero_zero (z : float) : is_zero z = true -> fadd fzero z = fzero.
Proof. destruct z as [[|]| | |]; try discriminate; reflexivity. Qed.

Lemma covers_range (me : Audio) (start_frame : Frame) (c g : Z) :
  covers me start_frame c g = true ->
  c < get_num_channels me /\ 0 <= g - start_frame < get_num_frames me.
Proof.
  unfold covers. rewrite !andb_true_iff, Z.ltb_lt, Z.leb_le, Z.ltb_lt. lia.
Qed.

End Balance.

Section SingleWeight.

Variables (ins : list Audio) (start_frames : list Frame).

(** The accumulation reads the gains at the frames of the inputs only. *)
Lemma accumulated_gains_ext (g1 g2 : nat -> Frame -> Amplitude) (c g : Z) (acc : Sample)
    (n : nat) :
  (forall i l, (i < n)%nat -> 0 <= l < get_num_frames (ins !!! i) -> g1 i l = g2 i l) ->
  accumulated n ins start_frames g1 c g acc = accumulated n ins start_frames g2 c g acc.
Proof.
  induction n as [|n IH]; intros Hext; [reflexivity|].
  rewrite !accumulated_S, IH by (intros; apply Hext; [lia|assumption]).
  unfold contribution. destruct (covers _ _ c g) eqn:Hcov; [|reflexivity].
  apply covers_range in Hcov as [_ Hl]. rewrite (Hext n) by (lia || exact Hl). reflexivity.
Qed.

Lemma mixes_from_zero_gains_ext (g1 g2 : nat -> Frame -> Amplitude) (out : Audio) :
  (forall i l, (i < length ins)%nat -> 0 <= l < get_num_frames (ins !!! i) ->
     g1 i l = g2 i l) ->
  mixes_from_zero ins start_frames g1 out -> mixes_from_zero ins start_frames g2 out.
Proof.
  intros Hext [Hch Hfr Hrate Hok Hsamples]. split; try assumption.
  intros c g Hc Hg. rewrite Hsamples by assumption.
  apply accumulated_gains_ext, Hext.
Qed.

(** With weight 1 on input [k] and weight 0 on every other input, the
    accumulation of inputs with finite samples leaves the samples of input
    [k], up to the sign of zero. *)
Lemma accumulated_single_weight (w : nat -> Amplitude) (k : nat) (c g : Z) :
  Forall buffer_ok ins -> Forall samples_valid ins -> Forall samples_finite ins ->
  w k = fone -> (forall i, (i < length ins)%nat -> i <> k -> w i = fzero) ->
  0 <= c ->
  forall n, (n <= length ins)%nat ->
    same (accumulated n ins start_frames (fun i _ => w i) c g fzero)
         (if (k <? n)%nat && covers (ins !!! k) (start_frames !!! k) c g
          then get_sample (ins !!! k) c (g - start_frames !!! k) else fzero)
    /\ ((n <= k)%nat -> accumulated n ins start_frames (fun i _ => w i) c g fzero = fzero).
Proof.
  intros Hok Hvalid Hfinite Hk Hoff Hc.
  rewrite Forall_forall in Hok. rewrite Forall_forall in Hvalid.
  rewrite Forall_forall in Hfinite.
  induction n as [|n IH]; intros Hn.
  - split; [left; reflexivity|reflexivity].
  - destruct IH as [IHsame IHzero]; [lia|].
    assert (Hin : ins !!! n ∈ ins) by (apply lookup_total_elem_of; lia).
    rewrite accumulated_S. unfold contribution.
    destruct (lt_eq_lt_dec n k) as [[Hlt|Heq]|Hgt].
    + assert (Hacc : contribution (ins !!! n) (start_frames !!! n) (fun _ => w n) c g
                       (accumulated n ins start_frames (fun i _ => w i) c g fzero) = fzero).
      { unfold contribution. rewrite IHzero by lia. rewrite Hoff by lia.
        destruct (covers (ins !!! n) (start_frames !!! n) c g) eqn:Hcov; [|reflexivity].
        apply covers_range in Hcov as [Hcc Hl].
        apply fadd_fzero_zero, fmul_zero_r; [|reflexivity].
        apply get_sample_finite; auto; lia. }
      unfold contribution in Hacc. rewrite Hacc.
      replace (k <? S n)%nat with false by (symmetry; apply Nat.ltb_ge; lia).
      split; [left; reflexivity|reflexivity].
    + subst n. rewrite IHzero by lia. rewrite Hk.
      replace (k <? S k)%nat with true by (symmetry; apply Nat.ltb_lt; lia).
      split; [|lia]. cbn [andb].
      destruct (covers (ins !!! k) (start_frames !!! k) c g) eqn:Hcov; [|left; reflexivity].
      apply covers_range in Hcov as [Hcc Hl].
      rewrite fmul_one_r by (apply get_sample_valid; auto; lia).
      apply fadd_zero_l.
    + replace (k <? S n)%nat with true by (symmetry; apply Nat.ltb_lt; lia).
      replace (k <? n)%nat with true in IHsame by (symmetry; apply Nat.ltb_lt; lia).
      split; [|lia]. rewrite Hoff by lia.
      destruct (covers (ins !!! n) (start_frames !!! n) c g) eqn:Hcov; [|exact IHsame].
      apply covers_range in Hcov as [Hcc Hl].
      eapply same_trans; [apply fadd_same_l, IHsame|].
      apply fadd_any_zero_r, fmul_zero_r; [|reflexivity].
      apply get_sample_finite; auto; lia.
Qed.

End SingleWeight.

Section SelectClaim.

Context {collab : Collaborators}.

(** The balance functions [select] builds, one per input. *)
Lemma balances_lookup (selection : Func) (n i : nat) :
  (i < n)%nat ->
  map (balance selection) (seqZ 0 (Z.of_nat n)) !!! i = balance selection (Z.of_nat i).
Proof.
  intros Hi. rewrite list_lookup_total_alt, list_lookup_fmap, lookup_seqZ_lt by lia.
  reflexivity.
Qed.

(** [select] is the mix whose gain for frame [l] of input [i] is the
    balance of [i] at the global index of the frame. *)
Lemma select_mixes (ins_unmatched : list Audio) (selection : Func)
    (start_times : list Second) :
  ins_unmatched <> [] -> resample_ok -> Forall buffer_ok ins_unmatched ->
  let ins := reconciled ins_unmatched in
  let start_frames := start_frames_of ins_unmatched start_times in
  Forall frame_value (needs ins start_frames) ->
  mixes_from_zero ins start_frames
    (fun i l =>
       balance selection (Z.of_nat i)
         (index_time (start_frames !!! i + l) (frame_to_time (get_format (ins !!! i)) 1)))
    (select ins_unmatched selection start_times).
Proof.
  intros Hne Hres Hok ins start_frames Hfit.
  pose proof (reconciled_nonempty _ Hne) as Hne'.
  destruct (reconciled_ok _ Hres Hne Hok) as [Hok' _].
  pose proof (reconciled_first_rate _ Hres Hne Hok) as Hrate.
  unfold select. rewrite mix_variable_gain_unfold by exact Hne.
  eapply mixes_from_zero_gains_ext; [|apply mix_write_from_zero; assumption].
  intros i l Hi Hl. cbn beta.
  rewrite variable_gains_lookup; [|exact Hi|exact Hl|apply needs_lookup; assumption].
  rewrite length_map, length_seqZ, Nat2Z.id.
  unfold ins in Hi. rewrite reconciled_length in Hi.
  replace (i <? length ins_unmatched)%nat with true by (symmetry; apply Nat.ltb_lt; exact Hi).
  rewrite balances_lookup by exact Hi. reflexivity.
Qed.

(** C6, amended.  [select] mixes the inputs with one balance function per
    input, [balance_i(t) = 0] when [|selection(t) - i| >= 1] and
    [sqrt(1 - |selection(t) - i|)] otherwise, taken at the global time of
    each frame.  For every list of inputs whose samples are finite: a
    selection constantly 0 leaves input 0 alone, a selection constantly 1
    leaves input 1 alone, and under a selection constantly 0.5 inputs 0
    and 1 are both weighed by [sqrt(0.5)], which is not zero.  (An infinite
    sample times the balance 0 is not a number, and spoils the sum.) *)
Theorem select_crossfade (ins_unmatched : list Audio) (selection : Func)
    (start_times : list Second) :
  ins_unmatched <> [] -> resample_ok -> Forall buffer_ok ins_unmatched ->
  (length start_times <= length ins_unmatched)%nat ->
  let ins := reconciled ins_unmatched in
  let start_frames := start_frames_of ins_unmatched start_times in
  let out := select ins_unmatched selection start_times in
  Forall frame_value (needs ins start_frames) ->
  Forall samples_valid ins -> Forall samples_finite ins ->
  mixes_from_zero ins start_frames
    (fun i l =>
       let t := index_time (start_frames !!! i + l) (frame_to_time (get_format (ins !!! i)) 1) in
       let distance := fabs (fsub (selection t) (of_Z (Z.of_nat i))) in
       if fge distance fone then fzero else fsqrt (fsub fone distance))
    out
  /\ ((forall t, selection t = fzero) ->
      forall c g, 0 <= c < get_num_channels out -> 0 <= g < get_num_frames out ->
        same (get_sample out c g)
             (if covers (ins !!! 0%nat) (start_frames !!! 0%nat) c g
              then get_sample (ins !!! 0%nat) c (g - start_frames !!! 0%nat) else fzero))
  /\ ((forall t, selection t = fone) -> (1 < length ins)%nat ->
      forall c g, 0 <= c < get_num_channels out -> 0 <= g < get_num_frames out ->
        same (get_sample out c g)
             (if covers (ins !!! 1%nat) (start_frames !!! 1%nat) c g
              then get_sample (ins !!! 1%nat) c (g - start_frames !!! 1%nat) else fzero))
  /\ ((forall t, selection t = fhalf) ->
      let weight := fun i : nat => balance (fun _ => fhalf) (Z.of_nat i) fzero in
      weight 0%nat = fsqrt fhalf /\ weight 1%nat = fsqrt fhalf
      /\ is_zero (fsqrt fhalf) = false
      /\ forall c g, 0 <= c < get_num_channels out -> 0 <= g < get_num_frames out ->
           get_sample out c g
           = accumulated (length ins) ins start_frames (fun i _ => weight i) c g fzero).
Proof.
  intros Hne Hres Hok _ ins start_frames out Hfit Hvalid Hfinite.
  destruct balance_constants as (B00 & B10 & B11 & Bh0 & Bh1 & Bnz).
  pose proof (select_mixes ins_unmatched selection start_times Hne Hres Hok Hfit) as Hmix.
  fold ins start_frames out in Hmix.
  destruct (reconciled_ok _ Hres Hne Hok) as [Hok' _]. fold ins in Hok'.
  assert (Hlen : (0 < length ins)%nat).
  { unfold ins. rewrite reconciled_length. destruct ins_unmatched; [congruence|cbn; lia]. }
  assert (Hconst : forall v, (forall t, selection t = v) ->
            forall c g, 0 <= c < get_num_channels out -> 0 <= g < get_num_frames out ->
              get_sample out c g
              = accumulated (length ins) ins start_frames
                  (fun i _ => balance (fun _ => v) (Z.of_nat i) fzero) c g fzero).
  { intros v Hsel c g Hc Hg. rewrite (mz_samples _ _ _ _ Hmix) by assumption.
    apply accumulated_gains_ext. intros i l _ _. unfold balance. rewrite Hsel. reflexivity. }
  split; [exact Hmix|]. split; [|split].
  - intros Hsel c g Hc Hg. rewrite (Hconst fzero Hsel) by assumption.
    destruct (accumulated_single_weight ins start_frames
                (fun i => balance (fun _ => fzero) (Z.of_nat i) fzero) 0%nat c g
                Hok' Hvalid Hfinite) with (n := length ins) as [Hsame _];
      try lia; [exact B00| |].
    + intros i _ Hi. apply balance_zero_off. lia.
    + replace (0 <? length ins)%nat with true in Hsame
        by (symmetry; apply Nat.ltb_lt; exact Hlen).
      exact Hsame.
  - intros Hsel Hlen1 c g Hc Hg. rewrite (Hconst fone Hsel) by assumption.
    destruct (accumulated_single_weight ins start_frames
                (fun i => balance (fun _ => fone) (Z.of_nat i) fzero) 1%nat c g
                Hok' Hvalid Hfinite) with (n := length ins) as [Hsame _];
      try lia; [exact B11| |].
    + intros i _ Hi. destruct i as [|[|i]]; [exact B10|congruence|].
      apply balance_one_off. lia.
    + replace (1 <? length ins)%nat with true in Hsame
        by (symmetry; apply Nat.ltb_lt; exact Hlen1).
      exact Hsame.
  - intros Hsel weight. split; [exact Bh0|]. split; [exact Bh1|]. split; [exact Bnz|].
    intros c g Hc Hg. apply (Hconst fhalf Hsel); assumption.
Qed.

End SelectClaim.

Section SelectWitness.

Import Demo.

Lemma select_crossfade_witness :
  let ins := reconciled [a; b] in
  let start_frames := start_frames_of [a; b] [] in
  same (get_sample (select [a; b] (fun _ => fzero) []) 0 1)
       (if covers (ins !!! 0%nat) (start_frames !!! 0%nat) 0 1
        then get_sample (ins !!! 0%nat) 0 (1 - start_frames !!! 0%nat) else fzero)
  /\ same (get_sample (select [a; b] (fun _ => fone) []) 1 1)
          (if covers (ins !!! 1%nat) (start_frames !!! 1%nat) 1 1
           then get_sample (ins !!! 1%nat) 1 (1 - start_frames !!! 1%nat) else fzero)
  /\ get_sample (select [a; b] (fun _ => fhalf) []) 0 1
     = accumulated (length ins) ins start_frames
         (fun i _ => balance (fun _ => fhalf) (Z.of_nat i) fzero) 0 1 fzero.
Proof.
  intros ins start_frames.
  assert (Hfin : Forall samples_finite (reconciled [a; b])) by (repeat constructor).
  assert (Hval : Forall samples_valid (reconciled [a; b])) by (repeat constructor).
  assert (Hok : Forall buffer_ok [a; b]) by (repeat constructor; apply demo_buffers_ok).
  assert (Hne : [a; b] <> []) by discriminate.
  assert (Hlen : (length (@nil Second) <= length [a; b])%nat) by (cbn; lia).
  assert (Hfit : Forall frame_value (needs (reconciled [a; b]) (start_frames_of [a; b] [])))
    by (apply frame_values_check; vm_compute; reflexivity).
  split; [|split].
  - destruct (select_crossfade [a; b] (fun _ => fzero) [] Hne demo_resample_ok Hok Hlen
                Hfit Hval Hfin) as (_ & Hzero & _).
    apply Hzero; [reflexivity| |]; vm_compute; split; discriminate || reflexivity.
  - destruct (select_crossfade [a; b] (fun _ => fone) [] Hne demo_resample_ok Hok Hlen
                Hfit Hval Hfin) as (_ & _ & Hone & _).
    apply Hone; [reflexivity|vm_compute; lia| |]; vm_compute; split; discriminate || reflexivity.
  - destruct (select_crossfade [a; b] (fun _ => fhalf) [] Hne demo_resample_ok Hok Hlen
                Hfit Hval Hfin) as (_ & _ & _ & Hhalf).
    destruct (Hhalf (fun _ => eq_refl)) as (_ & _ & _ & Hsamples).
    apply Hsamples; vm_compute; split; discriminate || reflexivity.
Defined.

(** With an infinite first sample in the second input, a selection
    constantly 0 does not leave the first input: the infinite sample times
    the balance 0 is not a number. *)
Lemma select_infinite_counterexample :
  samples_valid binf
  /\ get_sample (select [a; binf] (fun _ => fzero) []) 0 0 = S754_nan
  /\ ~ same (get_sample (select [a; binf] (fun _ => fzero) []) 0 0) (get_sample a 0 0).
Proof.
  split; [repeat constructor|]. vm_compute. split; [reflexivity|].
  intros [Heq|[Hzero _]]; discriminate.
Qed.

End SelectWitness.

(** ** More on mix_in_place: what it leaves alone *)

Section MixInPlaceFrame.

Context {collab : Collaborators}.

Variables (source : Audio) (start_time : Second) (sampled : list Amplitude).

Local Abbreviation frames_loop := (mix_in_place_frames source start_time sampled).

Lemma mix_in_place_frames_length channel ls this :
  length (buffer (frames_loop channel ls this)) = length (buffer this).
Proof.
  revert this. induction ls as [|f ls IH]; intros this; [reflexivity|].
  cbn [mix_in_place_frames].
  destruct (_ <? 0); [apply IH|].
  destruct (_ <=? _); [reflexivity|].
  rewrite IH. cbn. apply length_insert.
Qed.

(** A pass none of whose frames lands inside the target writes nothing. *)
Lemma mix_in_place_frames_idle channel ls this :
  Forall (fun f => ~ 0 <= time_to_frame (get_format this) start_time + f < get_num_frames this) ls ->
  frames_loop channel ls this = this.
Proof.
  induction ls as [|f ls IH]; intros Hall; [reflexivity|].
  apply Forall_cons in Hall as [Hf Hall]. cbn [mix_in_place_frames].
  destruct (time_to_frame (get_format this) start_time + f <? 0) eqn:Hneg;
    [apply IH, Hall|].
  destruct (get_num_frames this <=? time_to_frame (get_format this) start_time + f)
    eqn:Hbreak; [reflexivity|].
  apply Z.ltb_ge in Hneg. apply Z.leb_gt in Hbreak. lia.
Qed.

Lemma mix_in_place_channels_length (frames : list Frame) cs this :
  length (buffer (fold_left (fun this channel => frames_loop channel frames this) cs this))
  = length (buffer this).
Proof.
  revert this. induction cs as [|ch cs IH]; intros this; cbn; [reflexivity|].
  rewrite IH. apply mix_in_place_frames_length.
Qed.

Lemma mix_in_place_channels_idle (frames : list Frame) cs this :
  Forall (fun f => ~ 0 <= time_to_frame (get_format this) start_time + f < get_num_frames this)
         frames ->
  fold_left (fun this channel => frames_loop channel frames this) cs this = this.
Proof.
  intros Hall. induction cs as [|ch cs IH]; cbn; [reflexivity|].
  rewrite mix_in_place_frames_idle by exact Hall. exact IH.
Qed.

Lemma mix_in_place_channels_other_frame (frames : list Frame) cs this c g :
  Forall (fun ch => 0 <= ch < get_num_channels this) cs ->
  0 <= c < get_num_channels this -> 0 <= g ->
  g - time_to_frame (get_format this) start_time ∉ frames ->
  get_sample (fold_left (fun this channel => frames_loop channel frames this) cs this) c g
  = get_sample this c g.
Proof.
  revert this. induction cs as [|ch cs IH]; intros this Hcs Hc Hg Hne; cbn; [reflexivity|].
  apply Forall_cons in Hcs as [Hch Hcs].
  rewrite IH.
  - apply mix_in_place_frames_other; try assumption. right. exact Hne.
  - unfold get_num_channels. rewrite mix_in_place_frames_format. exact Hcs.
  - unfold get_num_channels. rewrite mix_in_place_frames_format. exact Hc.
  - exact Hg.
  - rewrite mix_in_place_frames_format. exact Hne.
Qed.

End MixInPlaceFrame.

Section MixInPlaceExtras.

Context {collab : Collaborators}.

(** The buffer [mix_in_place] reads from. *)
Local Abbreviation source_of this other :=
  (if get_sample_rate this =? get_sample_rate other then other
   else resample other (get_sample_rate this)).

Lemma mix_in_place_unfold (this other : Audio) (start_time : Second) (g : Func) :
  mix_in_place this other start_time g
  = fold_left
      (fun target channel =>
         mix_in_place_frames (source_of this other) start_time
           (sample_function_over_domain (source_of this other) g) channel
           (seqZ 0 (get_num_frames (source_of this other))) target)
      (seqZ 0 (Z.min (get_num_channels this) (get_num_channels (source_of this other))))
      this.
Proof.
  unfold mix_in_place. destruct (get_sample_rate this =? get_sample_rate other); reflexivity.
Qed.

(** [mix_in_place] never resizes its target: the format and the size of
    the storage are those of the target, whatever is mixed in. *)
Theorem mix_in_place_keeps_format (this other : Audio) (start_time : Second) (g : Func) :
  get_format (mix_in_place this other start_time g) = get_format this
  /\ length (buffer (mix_in_place this other start_time g)) = length (buffer this)
  /\ (buffer_ok this -> buffer_ok (mix_in_place this other start_time g)).
Proof.
  rewrite mix_in_place_unfold.
  split; [apply mix_in_place_channels_format|].
  split; [apply mix_in_place_channels_length|].
  intros [Hc Hf Hlen]. split.
  - unfold get_num_channels. rewrite mix_in_place_channels_format. exact Hc.
  - unfold get_num_frames. rewrite mix_in_place_channels_format. exact Hf.
  - rewrite mix_in_place_channels_length. unfold get_num_channels, get_num_frames.
    rewrite mix_in_place_channels_format. exact Hlen.
Qed.

(** [mix_in_place] changes nothing outside the window the other buffer
    covers: the channels the source does not have, and the frames before
    its start frame or after its last frame, keep their samples. *)
Theorem mix_in_place_outside_unchanged (this other : Audio) (start_time : Second)
    (g : Func) (c : Channel) (frame : Frame) :
  let source := source_of this other in
  let start_frame := time_to_frame (get_format this) start_time in
  0 <= c < get_num_channels this -> 0 <= frame ->
  get_num_channels source <= c
  \/ frame < start_frame
  \/ start_frame + get_num_frames source <= frame ->
  get_sample (mix_in_place this other start_time g) c frame = get_sample this c frame.
Proof.
  intros source start_frame Hc Hframe Hout. rewrite mix_in_place_unfold. fold source.
  assert (Hcs : Forall (fun ch => 0 <= ch < get_num_channels this)
                  (seqZ 0 (Z.min (get_num_channels this) (get_num_channels source)))).
  { apply Forall_seqZ. lia. }
  destruct Hout as [Hch|Hfr].
  - apply mix_in_place_channels_other; try assumption.
    rewrite elem_of_seqZ. lia.
  - apply mix_in_place_channels_other_frame; try assumption.
    fold start_frame. rewrite elem_of_seqZ. lia.
Qed.

(** When the other buffer lies entirely after the end of the target, or
    entirely before its start, [mix_in_place] returns the target as it is. *)
Theorem mix_in_place_no_overlap (this other : Audio) (start_time : Second) (g : Func) :
  let source := source_of this other in
  let start_frame := time_to_frame (get_format this) start_time in
  get_num_frames this <= start_frame \/ start_frame + get_num_frames source <= 0 ->
  mix_in_place this other start_time g = this.
Proof.
  intros source start_frame Hout. rewrite mix_in_place_unfold. fold source.
  apply mix_in_place_channels_idle. fold start_frame.
  apply Forall_seqZ. intros f Hf. lia.
Qed.

End MixInPlaceExtras.

Section MixInPlaceExtrasWitness.

Import Demo.

Lemma mix_in_place_outside_unchanged_witness :
  get_sample (mix_in_place b a fzero (fun t => t)) 1 1 = get_sample b 1 1.
Proof.
  apply (mix_in_place_outside_unchanged b a fzero (fun t => t) 1 1).
  - vm_compute. split; [discriminate|reflexivity].
  - lia.
  - left. vm_compute. discriminate.
Defined.

Lemma mix_in_place_no_overlap_witness :
  mix_in_place b a fone (fun t => t) = b.
Proof.
  apply (mix_in_place_no_overlap b a fone (fun t => t)).
  left. vm_compute. discriminate.
Defined.

End MixInPlaceExtrasWitness.

Section MixInPlaceFormatWitness.

Import Demo.

Lemma mix_in_place_keeps_format_witness :
  get_format (mix_in_place b a fzero (fun t => t)) = get_format b
  /\ length (buffer (mix_in_place b a fzero (fun t => t))) = length (buffer b)
  /\ buffer_ok (mix_in_place b a fzero (fun t => t)).
Proof.
  destruct (mix_in_place_keeps_format b a fzero (fun t => t)) as (Hfmt & Hlen & Hok).
  split; [exact Hfmt|]. split; [exact Hlen|]. apply Hok, demo_buffers_ok.
Defined.

End MixInPlaceFormatWitness.

(** ** The write loops, again *)

Section WriteLoopsExtras.

(** The frames of one channel may be visited in any order: every visiting
    order of the frames of an input leaves the same samples in the output
    (the source hands the frames to a parallel [std::for_each]). *)
Theorem frame_order_irrelevant (me : Audio) (start_frame : Frame)
    (gain_at : Frame -> Amplitude) (out : Audio) (channel : Channel)
    (order : list Frame) (c : Channel) (g : Frame) :
  buffer_ok out -> order ≡ₚ seqZ 0 (get_num_frames me) ->
  0 <= channel < get_num_channels out ->
  0 <= c < get_num_channels out -> 0 <= g < get_num_frames out ->
  get_sample
    (fold_left (mix_frame me start_frame gain_at (get_num_frames out) channel) order out) c g
  = get_sample (mix_channel me start_frame gain_at (get_num_frames out) out channel) c g.
Proof.
  intros Hok Hperm Hch Hc Hg. unfold mix_channel.
  assert (Hnd : NoDup order) by (rewrite Hperm; apply NoDup_seqZ).
  destruct (decide (c = channel /\ g - start_frame ∈ order)) as [[-> Hin]|Hno].
  - rewrite !(frames_loop_hit me start_frame gain_at (get_num_frames out)); try assumption;
      try reflexivity.
    + apply NoDup_seqZ.
    + rewrite <- Hperm. exact Hin.
  - assert (Hne : c <> channel \/ g - start_frame ∉ order).
    { destruct (decide (c = channel)) as [->|Hne]; [right|left; exact Hne].
      intros Hin. apply Hno. split; [reflexivity|exact Hin]. }
    rewrite !frames_loop_other; try assumption; try lia; try reflexivity.
    destruct Hne as [Hne|Hne]; [left; exact Hne|right]. rewrite <- Hperm. exact Hne.
Qed.

(** An input without frames, or without channels, leaves the output as
    it is. *)
Theorem mix_input_empty (me : Audio) (start_frame : Frame)
    (gain_at : Frame -> Amplitude) (n : Frame) (out : Audio) :
  get_num_frames me <= 0 \/ get_num_channels me <= 0 ->
  mix_input me start_frame gain_at n out = out.
Proof.
  intros [Hf|Hc]; unfold mix_input.
  - assert (Hstep : forall ch o, mix_channel me start_frame gain_at n o ch = o).
    { intros ch o. unfold mix_channel. rewrite seqZ_nil by exact Hf. reflexivity. }
    induction (seqZ 0 (get_num_channels me)) as [|ch cs IH]; cbn; [reflexivity|].
    rewrite Hstep. exact IH.
  - rewrite seqZ_nil by exact Hc. reflexivity.
Qed.

End WriteLoopsExtras.

Section WriteLoopsExtrasWitness.

Import Demo.

Lemma frame_order_irrelevant_witness :
  get_sample (fold_left (mix_frame a 0 (fun _ => fhalf) 2 0) [2; 0; 1] b) 0 1
  = get_sample (mix_channel a 0 (fun _ => fhalf) 2 b 0) 0 1.
Proof.
  apply (frame_order_irrelevant a 0 (fun _ => fhalf) b 0 [2; 0; 1] 0 1).
  - apply demo_buffers_ok.
  - change (seqZ 0 (get_num_frames a)) with [0; 1; 2].
    apply (Permutation_cons_append [0; 1] 2).
  - vm_compute. split; [discriminate|reflexivity].
  - vm_compute. split; [discriminate|reflexivity].
  - vm_compute. split; [discriminate|reflexivity].
Defined.

Lemma mix_input_empty_witness :
  mix_input create_null 3 (fun _ => fone) 2 b = b.
Proof. apply mix_input_empty. left. cbn. lia. Defined.

End WriteLoopsExtrasWitness.

(** ** More on mix *)

Section MixExtras.

Context {collab : Collaborators}.

Lemma pad_to_idem {A : Type} (n : nat) (d : A) (v : list A) :
  pad_to n d (pad_to n d v) = pad_to n d v.
Proof.
  unfold pad_to. rewrite length_app, length_replicate.
  replace (n - (length v + (n - length v)))%nat with 0%nat by lia.
  cbn. apply app_nil_r.
Qed.

Lemma pad_to_lookup {A : Type} `{Inhabited A} (n : nat) (d : A) (v : list A) (i : nat) :
  (i < n)%nat ->
  pad_to n d v !!! i = if (i <? length v)%nat then v !!! i else d.
Proof.
  intros Hi. unfold pad_to. destruct (i <? length v)%nat eqn:Hlt.
  - apply Nat.ltb_lt in Hlt. apply lookup_total_app_l, Hlt.
  - apply Nat.ltb_ge in Hlt. rewrite lookup_total_app_r by exact Hlt.
    apply lookup_total_replicate_2. lia.
Qed.

(** Trailing start times and gains that are left out stand for 0 and 1:
    writing them out gives the same mix.  (The lists are not longer than
    the list of inputs: the padding loops count up from their sizes to the
    number of inputs.) *)
Theorem mix_defaults_explicit (ins : list Audio) (start_times : list Second)
    (amplitudes : list Amplitude) :
  (length start_times <= length ins)%nat ->
  (length amplitudes <= length ins)%nat ->
  mix ins (pad_to (length ins) fzero start_times) (pad_to (length ins) fone amplitudes)
  = mix ins start_times amplitudes.
Proof.
  intros _ _. destruct ins as [|a ins]; [reflexivity|].
  rewrite !mix_unfold by discriminate.
  unfold start_frames_of, constant_gains.
  rewrite reconciled_length, !pad_to_idem. reflexivity.
Qed.

Lemma mix_single_at (a : Audio) (start_times : list Second) (amplitudes : list Amplitude)
    (s : Frame) :
  buffer_ok a ->
  start_frames_of [a] start_times = [s] ->
  frame_value (get_num_frames a + s) ->
  mixes_from_zero [a] [s] (constant_gains 1 amplitudes) (mix [a] start_times amplitudes).
Proof.
  intros Hok Hstart Hfit.
  assert (Hrec : reconciled [a] = [a]).
  { apply reconciled_same_rate; [discriminate|]. repeat constructor. }
  rewrite mix_unfold by discriminate. rewrite Hstart, Hrec.
  apply mix_write_from_zero.
  - discriminate.
  - constructor; [exact Hok|constructor].
  - repeat constructor.
  - constructor; [exact Hfit|constructor].
Qed.

Lemma start_frames_of_single (a : Audio) (start_times : list Second) (t : Second) :
  pad_to 1 fzero start_times = [t] ->
  start_frames_of [a] start_times = [time_to_frame (get_format a) t].
Proof.
  intros Hst. unfold start_frames_of.
  replace (reconciled [a]) with [a]
    by (symmetry; apply reconciled_same_rate; [discriminate|repeat constructor]).
  cbn [length]. rewrite Hst. reflexivity.
Qed.

(** A single buffer mixed at a start time and with a gain is the buffer
    moved by the start frame and scaled: a positive start frame puts that
    many silent frames in front, a negative one cuts the frames that would
    land before frame 0.  (The end frame, the frames plus the start frame,
    is asked to fit the 32-bit [Frame] type.) *)
Theorem mix_single_shift (a : Audio) (start_times : list Second)
    (amplitudes : list Amplitude) (t : Second) (gain : Amplitude) :
  buffer_ok a ->
  pad_to 1 fzero start_times = [t] ->
  pad_to 1 fone amplitudes = [gain] ->
  let start_frame := time_to_frame (get_format a) t in
  let out := mix [a] start_times amplitudes in
  frame_value (get_num_frames a + start_frame) ->
  get_num_channels out = get_num_channels a
  /\ get_num_frames out = Z.max 0 (get_num_frames a + start_frame)
  /\ get_sample_rate out = get_sample_rate a
  /\ forall c g, 0 <= c < get_num_channels a -> 0 <= g < get_num_frames out ->
       get_sample out c g
       = if start_frame <=? g
         then fadd fzero (fmul (get_sample a c (g - start_frame)) gain)
         else fzero.
Proof.
  intros Hok Hst Hamp start_frame out Hfit.
  pose proof (mix_single_at a start_times amplitudes start_frame Hok
                (start_frames_of_single a start_times t Hst) Hfit) as Hmix.
  fold out in Hmix. destruct Hmix as [Hch Hfr Hrate _ Hsamples].
  assert (Hc : get_num_channels out = get_num_channels a).
  { apply (is_max_of_unique _ _ [get_num_channels a]); [exact Hch|].
    split; [left|repeat constructor; lia]. }
  assert (Hf : get_num_frames out = Z.max 0 (get_num_frames a + start_frame)).
  { apply (is_max_of_unique _ _ [0; get_num_frames a + start_frame]); [exact Hfr|].
    split; [|repeat constructor; lia].
    destruct (Z.max_spec 0 (get_num_frames a + start_frame)) as [[_ ->]|[_ ->]];
      [right; left|left]. }
  split; [exact Hc|]. split; [exact Hf|].
  split; [apply Forall_cons in Hrate as [Hr _]; symmetry; exact Hr|].
  intros c g Hcr Hgr. rewrite Hsamples by lia.
  cbn [length]. rewrite accumulated_one. unfold contribution, constant_gains.
  rewrite Hamp. change ([gain] !!! 0%nat) with gain.
  destruct (start_frame <=? g) eqn:Hle.
  - apply Z.leb_le in Hle. rewrite covers_true by lia. reflexivity.
  - apply Z.leb_gt in Hle. rewrite covers_false by lia. reflexivity.
Qed.

End MixExtras.

Section MixExtrasWitness.

Import Demo.

Lemma mix_defaults_explicit_witness :
  mix [a; b] (pad_to (length [a; b]) fzero [fhalf]) (pad_to (length [a; b]) fone [])
  = mix [a; b] [fhalf] [].
Proof. apply mix_defaults_explicit; cbn; lia. Defined.

Lemma mix_single_shift_witness :
  let start_frame := time_to_frame (get_format a) fhalf in
  get_num_frames (mix [a] [fhalf] [fhalf]) = Z.max 0 (get_num_frames a + start_frame)
  /\ get_sample (mix [a] [fhalf] [fhalf]) 0 1 = fzero
  /\ get_sample (mix [a] [fhalf] [fhalf]) 0 3
     = fadd fzero (fmul (get_sample a 0 (3 - start_frame)) fhalf).
Proof.
  intros start_frame.
  destruct (mix_single_shift a [fhalf] [fhalf] fhalf fhalf) as (_ & Hframes & _ & Hsamples).
  - apply demo_buffers_ok.
  - reflexivity.
  - reflexivity.
  - apply frame_value_check. vm_compute. reflexivity.
  - split; [exact Hframes|]. split.
    + rewrite Hsamples; [reflexivity| |]; vm_compute; split; discriminate || reflexivity.
    + rewrite Hsamples; [reflexivity| |]; vm_compute; split; discriminate || reflexivity.
Defined.

End MixExtrasWitness.

(** ** Constant gain functions *)

Section ConstantGainFunctions.

Context {collab : Collaborators}.

(** The write pass of an input reads its gains at the frames of the input
    only. *)
Lemma mix_input_gains_ext (me : Audio) (start_frame : Frame)
    (g1 g2 : Frame -> Amplitude) (n : Frame) (out : Audio) :
  (forall l, 0 <= l < get_num_frames me -> g1 l = g2 l) ->
  mix_input me start_frame g1 n out = mix_input me start_frame g2 n out.
Proof.
  intros Hext. unfold mix_input. apply fold_left_ext_in. intros o ch _.
  unfold mix_channel. apply fold_left_ext_in. intros o' l Hl.
  apply elem_of_seqZ in Hl. unfold mix_frame. rewrite Hext by lia. reflexivity.
Qed.

Lemma mix_write_gains_ext (ins : list Audio) (start_frames : list Frame)
    (g1 g2 : nat -> Frame -> Amplitude) (n : Frame) (out : Audio) :
  (forall i l, (i < length ins)%nat -> 0 <= l < get_num_frames (ins !!! i) ->
     g1 i l = g2 i l) ->
  mix_write ins start_frames g1 n out = mix_write ins start_frames g2 n out.
Proof.
  intros Hext. unfold mix_write, mix_write_upto. apply fold_left_ext_in.
  intros o i Hi. apply elem_of_seq in Hi.
  apply mix_input_gains_ext. intros l Hl. apply Hext; [lia|exact Hl].
Qed.

(** [mix_variable_gain] with gain functions that are constant is [mix]
    with these constants as gains; in particular without gain functions it
    is [mix] without gains.  (The lists are not longer than the list of
    inputs, and the end frame of every input fits the [Frame] type, in
    which the range of the sampled gains is computed.) *)
Theorem mix_variable_gain_constant (ins : list Audio) (start_times : list Second)
    (amplitudes : list Amplitude) :
  (length start_times <= length ins)%nat ->
  (length amplitudes <= length ins)%nat ->
  Forall frame_value (needs (reconciled ins) (start_frames_of ins start_times)) ->
  mix_variable_gain ins start_times (map (fun gain => fun _ : Second => gain) amplitudes)
  = mix ins start_times amplitudes.
Proof.
  intros _ _ Hfit. destruct ins as [|a ins]; [reflexivity|].
  rewrite mix_variable_gain_unfold, mix_unfold by discriminate.
  apply mix_write_gains_ext. intros i l Hi Hl.
  rewrite variable_gains_lookup; [|exact Hi|exact Hl|apply needs_lookup; assumption].
  unfold constant_gains. rewrite pad_to_lookup by exact Hi.
  rewrite length_map. destruct (i <? length amplitudes)%nat eqn:Hlt; [|reflexivity].
  apply Nat.ltb_lt in Hlt.
  destruct (lookup_lt_is_Some_2 amplitudes i Hlt) as [gain Hgain].
  rewrite (list_lookup_total_correct amplitudes i gain Hgain).
  rewrite list_lookup_total_alt, list_lookup_fmap, Hgain. reflexivity.
Qed.

End ConstantGainFunctions.

Section ConstantGainFunctionsWitness.

Import Demo.

Lemma mix_variable_gain_constant_witness :
  mix_variable_gain [a; b] [fhalf] (map (fun gain => fun _ : Second => gain) [fhalf])
  = mix [a; b] [fhalf] [fhalf].
Proof.
  apply mix_variable_gain_constant.
  - cbn. lia.
  - cbn. lia.
  - apply frame_values_check. vm_compute. reflexivity.
Defined.

End ConstantGainFunctionsWitness.

(** ** join of a single buffer *)

Section JoinSingle.

Context {collab : Collaborators}.

(** [join] of a single buffer returns the buffer, whatever the offset: the
    offset only separates consecutive inputs. *)
Theorem join_single (a : Audio) (offset : Second) :
  buffer_ok a -> samples_valid a ->
  time_to_frame (get_format a) fzero = 0 ->
  let out := join [a] offset in
  join_start_times [a] offset = [fzero]
  /\ get_format out = get_format a
  /\ forall c f, 0 <= c < get_num_channels a -> 0 <= f < get_num_frames a ->
       same (get_sample out c f) (get_sample a c f).
Proof.
  intros Hok Hvalid Ht2f out. split; [reflexivity|].
  change out with (mix [a] [fzero] []).
  assert (Hstart : start_frames_of [a] [fzero] = [0]).
  { rewrite (start_frames_of_single a [fzero] fzero) by reflexivity.
    rewrite Ht2f. reflexivity. }
  assert (Hfit : frame_value (get_num_frames a + 0)).
  { pose proof (ok_frames _ Hok). unfold frame_value, min_frame. lia. }
  destruct (mix_single_at a [fzero] [] 0 Hok Hstart Hfit) as [Hch Hfr Hrate _ Hsamples].
  assert (Hc : get_num_channels (mix [a] [fzero] []) = get_num_channels a).
  { apply (is_max_of_unique _ _ [get_num_channels a]); [exact Hch|].
    split; [left|repeat constructor; lia]. }
  assert (Hf : get_num_frames (mix [a] [fzero] []) = get_num_frames a).
  { rewrite <- (Z.add_0_r (get_num_frames a)).
    apply (is_max_of_unique _ _ [0; get_num_frames a + 0]); [exact Hfr|].
    pose proof (ok_frames _ Hok).
    split; [right; left|repeat constructor; lia]. }
  split.
  - apply format_eq; [exact Hc|exact Hf|].
    apply Forall_cons in Hrate as [Hr _]. symmetry. exact Hr.
  - intros c f Hcr Hfr'. rewrite Hsamples by lia.
    cbn [length]. rewrite accumulated_one. unfold contribution.
    rewrite covers_true by lia.
    change (constant_gains 1 [] 0%nat (f - 0)) with fone.
    replace (f - 0) with f by lia.
    rewrite fmul_one_r by (apply get_sample_valid; assumption).
    apply fadd_zero_l.
Qed.

End JoinSingle.

Section JoinSingleWitness.

Import Demo.

Lemma join_single_witness :
  join_start_times [b] fone = [fzero]
  /\ get_format (join [b] fone) = get_format b
  /\ same (get_sample (join [b] fone) 1 0) (get_sample b 1 0).
Proof.
  destruct (join_single b fone) as (Hstart & Hformat & Hsamples).
  - apply demo_buffers_ok.
  - repeat constructor.
  - reflexivity.
  - split; [exact Hstart|]. split; [exact Hformat|].
    apply Hsamples; vm_compute; split; discriminate || reflexivity.
Defined.

End JoinSingleWitness.

(** ** More on the reconciliation *)

Section ReconcileExtras.

Context {collab : Collaborators}.

(** The inputs [mix] works on after the reconciliation are as many as the
    inputs it was given, are well formed, and all have the greatest
    sample rate of the inputs given. *)
Theorem reconciled_common_rate (ins : list Audio) :
  resample_ok -> ins <> [] -> Forall buffer_ok ins ->
  length (reconciled ins) = length ins
  /\ Forall buffer_ok (reconciled ins)
  /\ exists r,
       is_max_of r (map get_sample_rate ins)
       /\ Forall (fun a => get_sample_rate a = r) (reconciled ins).
Proof.
  intros Hres Hne Hok. split; [apply reconciled_length|].
  destruct (reconciled_ok ins Hres Hne Hok) as [Hok' Hrate].
  split; [exact Hok'|].
  exists (max_of get_sample_rate ins). split; [|exact Hrate].
  apply max_of_is_max, Hne.
Qed.

(** Once reconciled, the inputs need no further reconciliation. *)
Theorem reconcile_twice (ins : list Audio) :
  resample_ok -> Forall buffer_ok ins ->
  match_sample_rates_or_return_null (reconciled ins) = []
  /\ reconciled (reconciled ins) = reconciled ins.
Proof.
  intros Hres Hok.
  assert (Hnull : match_sample_rates_or_return_null (reconciled ins) = []).
  { destruct ins as [|a ins]; [reflexivity|].
    assert (Hne : a :: ins <> []) by discriminate.
    destruct (reconciled_ok _ Hres Hne Hok) as [_ Hrate].
    pose proof (reconciled_nonempty _ Hne) as Hne'.
    destruct (match_sample_rates_cases _ Hne') as [[_ Heq]|[Hall _]]; [exact Heq|].
    exfalso. apply Hall.
    destruct (max_of_is_max get_sample_rate _ Hne') as [Hin _].
    apply list_elem_of_fmap in Hin as (x & Hx & Hin).
    rewrite Forall_forall in Hrate. rewrite Hx, (Hrate x Hin).
    apply Forall_forall, Hrate. }
  split; [exact Hnull|]. unfold reconciled at 1. rewrite Hnull. reflexivity.
Qed.

End ReconcileExtras.

Section ReconcileExtrasWitness.

Import Demo.

Lemma reconciled_common_rate_witness :
  length (reconciled [a; c8]) = length [a; c8]
  /\ Forall buffer_ok (reconciled [a; c8])
  /\ exists r,
       is_max_of r (map get_sample_rate [a; c8])
       /\ Forall (fun x => get_sample_rate x = r) (reconciled [a; c8]).
Proof.
  apply reconciled_common_rate.
  - exact demo_resample_ok.
  - discriminate.
  - repeat constructor; apply demo_buffers_ok.
Defined.

Lemma reconcile_twice_witness :
  match_sample_rates_or_return_null (reconciled [a; c8]) = []
  /\ reconciled (reconciled [a; c8]) = reconciled [a; c8].
Proof.
  apply reconcile_twice.
  - exact demo_resample_ok.
  - repeat constructor; apply demo_buffers_ok.
Defined.

End ReconcileExtrasWitness.

(** ** The channel-count and maximum helpers *)

Section Helpers.

Lemma channel_counts_all_true (numchannels : Channel) (ins : list Audio) :
  channel_counts_all numchannels ins = true
  <-> Forall (fun a => get_num_channels a = numchannels) ins.
Proof.
  induction ins as [|a ins IH]; cbn.
  - split; [constructor|reflexivity].
  - destruct (get_num_channels a =? numchannels) eqn:Heq; cbn.
    + apply Z.eqb_eq in Heq. rewrite IH. split.
      * intros Hall. constructor; assumption.
      * intros Hall. apply Forall_cons in Hall as [_ Hall]. exact Hall.
    + apply Z.eqb_neq in Heq. split; [discriminate|].
      intros Hall. apply Forall_cons in Hall as [Ha _]. congruence.
Qed.

(** [do_channel_counts_match] answers [true] exactly when any two inputs
    have the same number of channels (so also for no input at all). *)
Theorem do_channel_counts_match_spec (ins : list Audio) :
  do_channel_counts_match ins = true
  <-> forall a b, a ∈ ins -> b ∈ ins -> get_num_channels a = get_num_channels b.
Proof.
  destruct ins as [|first rest].
  - split; [|reflexivity]. intros _ a b Ha. inversion Ha.
  - unfold do_channel_counts_match.
    change ((first :: rest) !!! 0%nat) with first.
    rewrite channel_counts_all_true, Forall_forall. split.
    + intros Hall a b Ha Hb. rewrite (Hall a Ha), (Hall b Hb). reflexivity.
    + intros Hall a Ha. apply Hall; [exact Ha|left].
Qed.

(** On a list that is not empty [get_max_num_channels] and
    [get_max_num_frames] return the greatest channel count and the
    greatest frame count of the list. *)
Theorem get_max_num_spec (ins : list Audio) :
  ins <> [] ->
  is_max_of (get_max_num_channels ins) (map get_num_channels ins)
  /\ is_max_of (get_max_num_frames ins) (map get_num_frames ins).
Proof.
  intros Hne. split; apply max_of_is_max, Hne.
Qed.

End Helpers.

Section HelpersWitness.

Import Demo.

Lemma get_max_num_spec_witness :
  is_max_of (get_max_num_channels [a; b; c8]) (map get_num_channels [a; b; c8])
  /\ is_max_of (get_max_num_frames [a; b; c8]) (map get_num_frames [a; b; c8]).
Proof. apply get_max_num_spec. discriminate. Defined.

End HelpersWitness.

(** ** The transform input *)

Section LoadReal.

Lemma store_loop_length (v : Z -> float) (ls : list Z) (init : list float) :
  length (fold_left (fun real f => <[Z.to_nat f := v f]> real) ls init) = length init.
Proof.
  revert init. induction ls as [|l ls IH]; intros init; cbn; [reflexivity|].
  rewrite IH. apply length_insert.
Qed.

Lemma store_loop_other (v : Z -> float) (ls : list Z) (init : list float) (k : Z) :
  Forall (fun f => 0 <= f) ls -> 0 <= k -> k ∉ ls ->
  fold_left (fun real f => <[Z.to_nat f := v f]> real) ls init !!! Z.to_nat k
  = init !!! Z.to_nat k.
Proof.
  revert init. induction ls as [|l ls IH]; intros init Hls Hk Hne; cbn; [reflexivity|].
  apply Forall_cons in Hls as [Hl Hls].
  rewrite IH; try assumption.
  - apply list_lookup_total_insert_ne. intros Heq. apply Z2Nat.inj in Heq; try lia.
    apply Hne. rewrite Heq. left.
  - intros Hin. apply Hne. right. exact Hin.
Qed.

Lemma store_loop_hit (v : Z -> float) (ls : list Z) (init : list float) (k : Z) :
  Forall (fun f => 0 <= f < Z.of_nat (length init)) ls -> k ∈ ls ->
  fold_left (fun real f => <[Z.to_nat f := v f]> real) ls init !!! Z.to_nat k = v k.
Proof.
  revert init. induction ls as [|l ls IH]; intros init Hls Hin; [inversion Hin|].
  apply Forall_cons in Hls as [Hl Hls]. cbn.
  destruct (decide (k ∈ ls)) as [Hin'|Hnotin].
  - apply IH; [|exact Hin']. rewrite length_insert. exact Hls.
  - apply elem_of_cons in Hin as [->|Hin]; [|contradiction].
    rewrite store_loop_other; try lia; try assumption.
    + apply list_lookup_total_insert_eq. lia.
    + eapply Forall_impl; [exact Hls|]. cbn. intros f Hf. lia.
Qed.

Lemma load_real_length (a : Audio) (channel : Channel) (dft_size : Z) :
  length (load_real a channel dft_size) = Z.to_nat dft_size.
Proof. unfold load_real. rewrite store_loop_length. apply length_replicate. Qed.

Lemma load_real_lookup (a : Audio) (channel : Channel) (dft_size : Z) (k : Z) :
  get_num_frames a <= dft_size -> 0 <= k < dft_size ->
  load_real a channel dft_size !!! Z.to_nat k
  = if k <? get_num_frames a then div_sqrt (get_sample a channel k) dft_size else fzero.
Proof.
  intros Hfit Hk. unfold load_real. destruct (k <? get_num_frames a) eqn:Hlt.
  - apply Z.ltb_lt in Hlt.
    apply (store_loop_hit (fun f => div_sqrt (get_sample a channel f) dft_size)).
    + apply Forall_seqZ. rewrite length_replicate. lia.
    + rewrite elem_of_seqZ. lia.
  - apply Z.ltb_ge in Hlt.
    rewrite (store_loop_other (fun f => div_sqrt (get_sample a channel f) dft_size)).
    + apply lookup_total_replicate_2. lia.
    + apply Forall_seqZ. lia.
    + lia.
    + rewrite elem_of_seqZ. lia.
Qed.

(** The real buffer handed to the forward transform has [dft_size]
    entries: the samples of the channel, each divided by the square root of
    [dft_size], followed by zeros. *)
Theorem load_real_zero_padded (a : Audio) (channel : Channel) (dft_size : Z) (k : Z) :
  get_num_frames a <= dft_size -> 0 <= k < dft_size ->
  length (load_real a channel dft_size) = Z.to_nat dft_size
  /\ load_real a channel dft_size !!! Z.to_nat k
     = if k <? get_num_frames a then div_sqrt (get_sample a channel k) dft_size
       else fzero.
Proof.
  intros Hfit Hk. unfold load_real. split.
  - rewrite store_loop_length. apply length_replicate.
  - destruct (k <? get_num_frames a) eqn:Hlt.
    + apply Z.ltb_lt in Hlt.
      apply (store_loop_hit (fun f => div_sqrt (get_sample a channel f) dft_size)).
      * apply Forall_seqZ. rewrite length_replicate. lia.
      * rewrite elem_of_seqZ. lia.
    + apply Z.ltb_ge in Hlt.
      rewrite (store_loop_other (fun f => div_sqrt (get_sample a channel f) dft_size)).
      * apply lookup_total_replicate_2. lia.
      * apply Forall_seqZ. lia.
      * lia.
      * rewrite elem_of_seqZ. lia.
Qed.

End LoadReal.

Section LoadRealWitness.

Import Demo.

Lemma load_real_zero_padded_witness :
  length (load_real a 0 8) = Z.to_nat 8
  /\ load_real a 0 8 !!! Z.to_nat 5
     = if 5 <? get_num_frames a then div_sqrt (get_sample a 0 5) 8 else fzero.
Proof. apply load_real_zero_padded; vm_compute; try split; discriminate || reflexivity. Defined.

End LoadRealWitness.

(** ** More on convolve *)

Section ConvolveLoops.

Context {collab : Collaborators}.

(** The loop that copies the real buffer into one channel of the output. *)
Lemma copy_loop_format (real : list float) (ch : Channel) (ls : list Frame) (out : Audio) :
  get_format (fold_left (fun out f => set_sample out ch f (real !!! Z.to_nat f)) ls out)
  = get_format out.
Proof.
  revert out. induction ls as [|l ls IH]; intros out; cbn; [reflexivity|].
  rewrite IH. reflexivity.
Qed.

Lemma copy_loop_ok (real : list float) (ch : Channel) (ls : list Frame) (out : Audio) :
  buffer_ok out ->
  buffer_ok (fold_left (fun out f => set_sample out ch f (real !!! Z.to_nat f)) ls out).
Proof.
  revert out. induction ls as [|l ls IH]; intros out Hok; cbn; [exact Hok|].
  apply IH, set_sample_ok, Hok.
Qed.

Lemma copy_loop_other (real : list float) (ch : Channel) (ls : list Frame) (out : Audio)
    (c g : Z) :
  0 <= ch < get_num_channels out -> Forall (fun f => 0 <= f) ls ->
  0 <= c < get_num_channels out -> 0 <= g ->
  c <> ch \/ g ∉ ls ->
  get_sample (fold_left (fun out f => set_sample out ch f (real !!! Z.to_nat f)) ls out) c g
  = get_sample out c g.
Proof.
  revert out. induction ls as [|l ls IH]; intros out Hch Hls Hc Hg Hne; cbn; [reflexivity|].
  apply Forall_cons in Hls as [Hl Hls].
  rewrite IH; try assumption.
  - apply get_set_sample_ne; try assumption.
    intros [= -> ->]. destruct Hne as [Hne|Hne]; [congruence|]. apply Hne. left.
  - destruct Hne as [Hne|Hne]; [left; exact Hne|right].
    intros Hin. apply Hne. right. exact Hin.
Qed.

Lemma copy_loop_hit (real : list float) (ch : Channel) (ls : list Frame) (out : Audio)
    (g : Z) :
  buffer_ok out -> 0 <= ch < get_num_channels out ->
  Forall (fun f => 0 <= f < get_num_frames out) ls -> g ∈ ls ->
  get_sample (fold_left (fun out f => set_sample out ch f (real !!! Z.to_nat f)) ls out) ch g
  = real !!! Z.to_nat g.
Proof.
  revert out. induction ls as [|l ls IH]; intros out Hok Hch Hls Hin; [inversion Hin|].
  apply Forall_cons in Hls as [Hl Hls]. cbn.
  destruct (decide (g ∈ ls)) as [Hin'|Hnotin].
  - apply IH; try assumption. apply set_sample_ok, Hok.
  - apply elem_of_cons in Hin as [->|Hin]; [|contradiction].
    rewrite copy_loop_other; try assumption; try lia.
    + apply get_set_sample_eq; assumption.
    + eapply Forall_impl; [exact Hls|]. cbn. intros f Hf. lia.
    + right. exact Hnotin.
Qed.

Lemma convolve_channel_ok (this sr_correct_ir : Audio) (dft_size : Z) (out : Audio)
    (channel : Channel) :
  buffer_ok out -> buffer_ok (convolve_channel this sr_correct_ir dft_size out channel).
Proof. apply copy_loop_ok. Qed.

Lemma convolve_channel_other (this sr_correct_ir : Audio) (dft_size : Z) (out : Audio)
    (channel c g : Z) :
  0 <= channel < get_num_channels out -> 0 <= c < get_num_channels out -> 0 <= g ->
  c <> channel ->
  get_sample (convolve_channel this sr_correct_ir dft_size out channel) c g
  = get_sample out c g.
Proof.
  intros Hch Hc Hg Hne. unfold convolve_channel.
  apply copy_loop_other; try assumption.
  - apply Forall_seqZ. lia.
  - left. exact Hne.
Qed.

Lemma convolve_channel_hit (this sr_correct_ir : Audio) (dft_size : Z) (out : Audio)
    (channel g : Z) :
  buffer_ok out -> 0 <= channel < get_num_channels out -> 0 <= g < get_num_frames out ->
  get_sample (convolve_channel this sr_correct_ir dft_size out channel) channel g
  = channel_result this sr_correct_ir dft_size channel !!! Z.to_nat g.
Proof.
  intros Hok Hch Hg. unfold convolve_channel.
  apply (copy_loop_hit (channel_result this sr_correct_ir dft_size channel));
    try assumption.
  - apply Forall_seqZ. lia.
  - rewrite elem_of_seqZ. lia.
Qed.

Lemma convolve_channels_ok (this sr_correct_ir : Audio) (dft_size : Z)
    (cs : list Channel) (out : Audio) :
  buffer_ok out ->
  buffer_ok (fold_left (convolve_channel this sr_correct_ir dft_size) cs out).
Proof.
  revert out. induction cs as [|ch cs IH]; intros out Hok; cbn; [exact Hok|].
  apply IH, convolve_channel_ok, Hok.
Qed.

Lemma convolve_channels_other (this sr_correct_ir : Audio) (dft_size : Z)
    (cs : list Channel) (out : Audio) (c g : Z) :
  Forall (fun ch => 0 <= ch < get_num_channels out) cs ->
  0 <= c < get_num_channels out -> 0 <= g -> c ∉ cs ->
  get_sample (fold_left (convolve_channel this sr_correct_ir dft_size) cs out) c g
  = get_sample out c g.
Proof.
  revert out. induction cs as [|ch cs IH]; intros out Hcs Hc Hg Hne; cbn; [reflexivity|].
  apply Forall_cons in Hcs as [Hch Hcs].
  rewrite IH.
  - apply convolve_channel_other; try assumption. intros ->. apply Hne. left.
  - unfold get_num_channels. rewrite convolve_channel_format. exact Hcs.
  - unfold get_num_channels. rewrite convolve_channel_format. exact Hc.
  - exact Hg.
  - intros Hin. apply Hne. right. exact Hin.
Qed.

Lemma convolve_channels_hit (this sr_correct_ir : Audio) (dft_size : Z)
    (cs : list Channel) (out : Audio) (c g : Z) :
  buffer_ok out -> Forall (fun ch => 0 <= ch < get_num_channels out) cs -> NoDup cs ->
  c ∈ cs -> 0 <= g < get_num_frames out ->
  get_sample (fold_left (convolve_channel this sr_correct_ir dft_size) cs out) c g
  = channel_result this sr_correct_ir dft_size c !!! Z.to_nat g.
Proof.
  revert out. induction cs as [|ch cs IH]; intros out Hok Hcs Hnd Hin Hg; [inversion Hin|].
  apply NoDup_cons in Hnd as [Hch' Hnd]. apply Forall_cons in Hcs as [Hch Hcs]. cbn.
  assert (Hcs' : Forall (fun ch0 => 0 <= ch0
                           < get_num_channels (convolve_channel this sr_correct_ir dft_size out ch))
                   cs).
  { unfold get_num_channels. rewrite convolve_channel_format. exact Hcs. }
  apply elem_of_cons in Hin as [->|Hin].
  - rewrite convolve_channels_other; try assumption; try lia.
    + apply convolve_channel_hit; assumption.
    + unfold get_num_channels. rewrite convolve_channel_format. exact Hch.
  - apply IH; try assumption.
    + apply convolve_channel_ok, Hok.
    + unfold get_num_frames. rewrite convolve_channel_format. exact Hg.
Qed.

End ConvolveLoops.

Section ConvolveExtras.

Context {collab : Collaborators}.

Lemma convolve_unfold (this ir : Audio) (normalize : bool) :
  is_null this = false -> is_null ir = false ->
  let sr_correct_ir := sr_correct_ir_of this ir in
  let out :=
    fold_left (convolve_channel this sr_correct_ir (dft_size_of this ir))
      (seqZ 0 (get_num_channels this))
      (Audio_of_format
         (mkFormat (get_num_channels this)
            (frame_add (get_num_frames this) (get_num_frames sr_correct_ir))
            (get_sample_rate this))) in
  convolve this ir normalize
  = if normalize then modify_volume_in_place out (fdiv fone (get_max_sample_magnitude out))
    else out.
Proof.
  intros Hthis Hir. unfold convolve, dft_size_of, sr_correct_ir_of. rewrite Hthis, Hir.
  destruct (get_sample_rate this =? get_sample_rate ir); reflexivity.
Qed.

Lemma Audio_of_format_ok (fmt : Format) :
  0 <= num_channels fmt -> 0 <= num_frames fmt <= max_frame -> buffer_ok (Audio_of_format fmt).
Proof.
  intros Hc Hf. split; cbn; try assumption. apply length_replicate.
Qed.

(** The output buffer [convolve] allocates, when the sum of the frames
    fits the [Frame] type. *)
Lemma convolve_out_ok (this sr_correct_ir : Audio) :
  buffer_ok this -> buffer_ok sr_correct_ir ->
  frame_value (get_num_frames this + get_num_frames sr_correct_ir) ->
  buffer_ok
    (Audio_of_format
       (mkFormat (get_num_channels this)
          (frame_add (get_num_frames this) (get_num_frames sr_correct_ir))
          (get_sample_rate this))).
Proof.
  intros Hok Hokir Hfit.
  pose proof (ok_channels _ Hok). pose proof (ok_frames _ Hok).
  pose proof (ok_frames _ Hokir).
  apply Audio_of_format_ok; cbn [num_channels num_frames]; [assumption|].
  rewrite frame_add_exact by exact Hfit. destruct Hfit as [_ Hhi]. lia.
Qed.


(** Without normalisation, channel [c] of the convolution holds the start
    of the real buffer obtained for that channel. *)
Lemma convolve_samples (this ir : Audio) (c : Channel) (frame : Frame) :
  is_null this = false -> is_null ir = false ->
  buffer_ok this -> buffer_ok (sr_correct_ir_of this ir) ->
  frame_value (get_num_frames this + get_num_frames (sr_correct_ir_of this ir)) ->
  0 <= c < get_num_channels this ->
  0 <= frame < get_num_frames this + get_num_frames (sr_correct_ir_of this ir) ->
  get_sample (convolve this ir false) c frame
  = channel_result this (sr_correct_ir_of this ir) (dft_size_of this ir) c
    !!! Z.to_nat frame.
Proof.
  intros Hthis Hir Hok Hokir Hfit Hc Hframe. rewrite convolve_unfold by assumption.
  apply convolve_channels_hit.
  - apply convolve_out_ok; assumption.
  - apply Forall_seqZ. cbn. lia.
  - apply NoDup_seqZ.
  - rewrite elem_of_seqZ. lia.
  - cbn. rewrite frame_add_exact by exact Hfit. exact Hframe.
Qed.

(** The real buffer loaded from a channel depends on the samples of that
    channel only. *)
Lemma load_real_ext (a a' : Audio) (channel : Channel) (dft_size : Z) :
  get_num_frames a' = get_num_frames a ->
  (forall f, 0 <= f < get_num_frames a -> get_sample a' channel f = get_sample a channel f) ->
  load_real a' channel dft_size = load_real a channel dft_size.
Proof.
  intros Hframes Hsamples. unfold load_real. rewrite Hframes.
  apply fold_left_ext_in. intros real f Hf. apply elem_of_seqZ in Hf.
  rewrite Hsamples by lia. reflexivity.
Qed.



End ConvolveExtras.

Section ConvolveExtrasWitness.

Import Demo.



End ConvolveExtrasWitness.

Section ConvolveImpulseCounterexample.

Import Transform2.



End ConvolveImpulseCounterexample.


(** ** The balance of an input the selection points at *)

Section BalanceOnIndex.

Lemma fsub_diag (x : float) : is_finite x = true -> fsub x x = fzero.
Proof.
  destruct x as [[|]|s| |s m e]; try discriminate; try reflexivity. intros _.
  unfold fsub, SFsub. rewrite Z.min_id. unfold shl_align. rewrite Z.sub_diag.
  reflexivity.
Qed.

(** When the selection is exactly the index of an input, the balance of
    that input is 1. *)
Theorem balance_on_index (selection : Func) (i : Z) (t : Second) :
  selection t = of_Z i -> is_finite (of_Z i) = true ->
  balance selection i t = fone.
Proof.
  intros Hsel Hfin. unfold balance. rewrite Hsel, fsub_diag by exact Hfin.
  reflexivity.
Qed.

End BalanceOnIndex.

Lemma balance_on_index_witness : balance (fun _ => of_Z 3) 3 fhalf = fone.
Proof. apply balance_on_index; reflexivity. Defined.

(** ** Function.h: clamp, max and min *)

Module FunctionFacts.

Import FunctionH.

Lemma compare_cont_opp (p q : positive) :
  Pos.compare_cont Eq q p = CompOpp (Pos.compare_cont Eq p q).
Proof. rewrite Pos.compare_cont_antisym. reflexivity. Qed.

(** Comparing the other way round gives the opposite answer. *)
Lemma SFcompare_antisym (x y : float) :
  SFcompare y x = option_map CompOpp (SFcompare x y).
Proof.
  destruct x as [sx|sx| |sx mx ex], y as [sy|sy| |sy my ey];
    try reflexivity; try (destruct sx; reflexivity); try (destruct sy; reflexivity);
    try (destruct sx, sy; reflexivity).
  destruct sx, sy; cbn; try reflexivity.
  - rewrite (Z.compare_antisym ex ey). destruct (ex ?= ey); cbn; try reflexivity.
    rewrite compare_cont_opp, CompOpp_involutive. reflexivity.
  - rewrite (Z.compare_antisym ex ey). destruct (ex ?= ey); cbn; try reflexivity.
    rewrite compare_cont_opp. reflexivity.
Qed.

Lemma SFcompare_not_nan (x y : float) :
  is_nan x = false -> is_nan y = false -> exists c, SFcompare x y = Some c.
Proof.
  destruct x, y; try discriminate; intros _ _; eexists; reflexivity.
Qed.

(** Of two values that are not NaN, one that is not below the other is at
    least the other. *)
Lemma flt_false_fle (x y : float) :
  is_nan x = false -> is_nan y = false -> flt x y = false -> fle y x = true.
Proof.
  intros Hx Hy. unfold flt, fle, SFltb, SFleb.
  rewrite (SFcompare_antisym x y).
  destruct (SFcompare_not_nan x y Hx Hy) as [c ->]. destruct c; cbn; congruence.
Qed.

Lemma flt_true_fle (x y : float) : flt x y = true -> fle x y = true.
Proof.
  unfold flt, fle, SFltb, SFleb. destruct (SFcompare x y) as [[| |]|]; congruence.
Qed.

Lemma fle_refl (x : float) : is_nan x = false -> fle x x = true.
Proof.
  intros Hx. apply flt_false_fle; try exact Hx.
  unfold flt, SFltb. pose proof (SFcompare_antisym x x) as Hanti.
  destruct (SFcompare x x) as [[| |]|]; cbn in Hanti; congruence.
Qed.

(** The value of [Function::clamp( a, b, c )] at an input lies between
    the values of the bounds [b] and [c] there, and is the value of [a]
    whenever that lies between them (for values that are not NaN and a lower
    bound that does not exceed the upper one). *)
Theorem clamp_within_bounds {I : Type} (a b c : Function I float) (x : I) :
  is_nan (a x) = false -> is_nan (b x) = false -> is_nan (c x) = false ->
  fle (b x) (c x) = true ->
  fle (b x) (clamp a b c x) = true
  /\ fle (clamp a b c x) (c x) = true
  /\ (flt (a x) (b x) = false -> flt (c x) (a x) = false -> clamp a b c x = a x).
Proof.
  intros Ha Hb Hc Hle. unfold clamp, std_clamp, apply.
  destruct (flt (a x) (b x)) eqn:Hlo.
  - split; [apply fle_refl, Hb|]. split; [exact Hle|discriminate].
  - destruct (flt (c x) (a x)) eqn:Hhi.
    + split; [exact Hle|]. split; [apply fle_refl, Hc|discriminate].
    + split; [apply flt_false_fle; assumption|].
      split; [apply flt_false_fle; assumption|reflexivity].
Qed.

(** [Function::max] returns, at every input, one of the two values and
    one that neither exceeds, and [Function::min] one that exceeds neither
    (for values that are not NaN). *)
Theorem max_min_bounds {I : Type} (a b : Function I float) (x : I) :
  is_nan (a x) = false -> is_nan (b x) = false ->
  (max a b x = a x \/ max a b x = b x)
  /\ fle (a x) (max a b x) = true /\ fle (b x) (max a b x) = true
  /\ (min a b x = a x \/ min a b x = b x)
  /\ fle (min a b x) (a x) = true /\ fle (min a b x) (b x) = true.
Proof.
  intros Ha Hb. unfold max, min, std_max, std_min, apply.
  destruct (flt (a x) (b x)) eqn:Hab; destruct (flt (b x) (a x)) eqn:Hba;
    repeat split;
    try (left; reflexivity); try (right; reflexivity);
    try (apply fle_refl; assumption);
    try (apply flt_true_fle; assumption);
    try (apply flt_false_fle; assumption).
Qed.

(** With a NaN among the two values [Function::max] and [Function::min]
    return the first one: a NaN in the second place is dropped, a NaN in the
    first place is returned. *)
Theorem max_min_nan {I : Type} (a b : Function I float) (x : I) :
  is_nan (a x) = true \/ is_nan (b x) = true ->
  max a b x = a x /\ min a b x = a x.
Proof.
  unfold max, min, std_max, std_min, apply, flt, SFltb.
  intros [Hnan|Hnan].
  - destruct (a x); try discriminate. destruct (b x); split; reflexivity.
  - destruct (b x); try discriminate. destruct (a x); split; reflexivity.
Qed.

Lemma clamp_within_bounds_witness :
  fle fzero (clamp (fun t : float => fmul t (of_Z 3)) (fun _ => fzero) (fun _ => fone) fhalf)
  = true
  /\ fle (clamp (fun t : float => fmul t (of_Z 3)) (fun _ => fzero) (fun _ => fone) fhalf) fone
     = true.
Proof.
  destruct (clamp_within_bounds (fun t : float => fmul t (of_Z 3))
              (fun _ => fzero) (fun _ => fone) fhalf) as (Hlo & Hhi & _);
    try reflexivity.
  split; [exact Hlo|exact Hhi].
Defined.

Lemma max_min_bounds_witness :
  fle fhalf (max (fun t : float => t) (fun _ => fone) fhalf) = true
  /\ fle (min (fun t : float => t) (fun _ => fone) fhalf) fone = true.
Proof.
  destruct (max_min_bounds (fun t : float => t) (fun _ => fone) fhalf)
    as (_ & Hmax & _ & _ & _ & Hmin); try reflexivity.
  split; [exact Hmax|exact Hmin].
Defined.

Lemma max_min_nan_witness :
  max (fun _ : float => fone) (fun _ => S754_nan) fzero = fone
  /\ min (fun _ : float => S754_nan) (fun _ => fone) fzero = S754_nan.
Proof.
  split.
  - apply (max_min_nan (fun _ : float => fone) (fun _ => S754_nan) fzero).
    right. reflexivity.
  - apply (max_min_nan (fun _ : float => S754_nan) (fun _ => fone) fzero).
    left. reflexivity.
Defined.

End FunctionFacts.

Section ChannelCountsWitness.

Import Demo.

Lemma do_channel_counts_match_spec_witness :
  do_channel_counts_match [a; c8] = true.
Proof.
  apply (proj2 (do_channel_counts_match_spec [a; c8])).
  intros x y Hx Hy. apply list_elem_of_In in Hx, Hy. cbn in Hx, Hy.
  destruct Hx as [<-|[<-|[]]], Hy as [<-|[<-|[]]]; reflexivity.
Defined.

End ChannelCountsWitness.
